(** * Dependency-graph extraction (scripts/generate_ast_dependencies.py)

    A shallow embedding of the dependency-extraction engine: the language
    classifier, the per-language extraction strategies (grammar pass with a
    regex fallback), the in-memory [DependencyGraph], the orchestrator
    [build_dependency_graph] and the aggregator [summarize_graphs].

    Conventions of the embedding.
    - Python [str] values that hold file text and reference strings are lists
      of Unicode code points ([str := list N]); [bytes] are lists of octets.
    - Path components, language identifiers and capture names are Rocq
      [string]s (they are ASCII literals in the source, or file names).
    - A Python [dict] is an association list in insertion order with unique
      keys ([dict K V]); a Python [set] of strings is a [gset str].
    - Code that may raise returns a [result]: [Ok] with the value, or
      [Raise] with the exception.
    - The Tree-sitter binding is a library outside the repository: it is a
      record of operations ([tree_sitter]), each of which may raise. The
      general statements quantify over it; the examples use bindings whose
      answers are fixed in advance. *)

From Stdlib Require Import NArith Ascii String List Permutation Sorted Lia.
From stdpp Require Import gmap strings list sorting.

#[local] Set Warnings "-clear-no-such-hyp".

Local Open Scope string_scope.
Local Open Scope list_scope.
Local Open Scope nat_scope.

(** ** Python strings and bytes *)

Definition str := list N.
Definition bytes := list N.

(** Octets of a Rocq string literal; for ASCII literals these are also its
    code points. *)
Definition octets (s : string) : list N :=
  map N_of_ascii (list_ascii_of_string s).

(** ** Exceptions *)

Inductive exn :=
| UnicodeDecodeError
| LibraryError (what : string).

Inductive result (A : Type) :=
| Ok (a : A)
| Raise (e : exn).
Arguments Ok {A} a.
Arguments Raise {A} e.

Definition rbind {A B} (m : result A) (k : A → result B) : result B :=
  match m with
  | Ok a => k a
  | Raise e => Raise e
  end.

#[global] Instance result_ret : MRet result := @Ok.
#[global] Instance result_bind : MBind result := fun A B k m => rbind m k.

Definition raises {A} (m : result A) : Prop :=
  match m with Ok _ => False | Raise _ => True end.

(** ** Insertion-ordered dictionaries *)

Section Dict.
Context {K V : Type} `{EqDecision K}.

Definition dict := list (K * V).

Fixpoint dict_get (d : dict) (k : K) : option V :=
  match d with
  | [] => None
  | (k', v) :: d' => if decide (k' = k) then Some v else dict_get d' k
  end.

(** [d[k] = v]: an existing key keeps its position, a new key goes last. *)
Fixpoint dict_set (d : dict) (k : K) (v : V) : dict :=
  match d with
  | [] => [(k, v)]
  | (k', v') :: d' =>
      if decide (k' = k) then (k, v) :: d' else (k', v') :: dict_set d' k v
  end.

Definition dict_keys (d : dict) : list K := map fst d.
Definition dict_values (d : dict) : list V := map snd d.
Definition dict_items (d : dict) : list (K * V) := d.
End Dict.
Arguments dict : clear implicits.

(** ** [sorted] *)

Section Sorted.
Context {A K : Type} (key : A → K) (lt : K → K → bool).

Fixpoint insert_stable (x : A) (l : list A) : list A :=
  match l with
  | [] => [x]
  | y :: l' => if lt (key y) (key x) then y :: insert_stable x l' else x :: l
  end.

(** The stable sort by [<] on the keys (the only comparison Python's sort
    uses). *)
Definition stable_sort (l : list A) : list A := foldr insert_stable [] l.

(** [sorted(l, key=..., reverse=...)]: with [reverse=True] the list is
    reversed, sorted, and reversed again, which keeps elements with equal
    keys in their original order. *)
Definition py_sorted (reverse : bool) (l : list A) : list A :=
  if reverse then list.reverse (stable_sort (list.reverse l)) else stable_sort l.
End Sorted.

(** [<] on Python strings: lexicographic on code points. *)
Fixpoint str_ltb (a b : str) : bool :=
  match a, b with
  | _, [] => false
  | [], _ :: _ => true
  | x :: a', y :: b' => if (x <? y)%N then true else if (y <? x)%N then false else str_ltb a' b'
  end.

(** [sum] over a list of counts. *)
Definition sum (l : list nat) : nat := foldr Nat.add 0 l.

(** ** DependencyGraph *)

Record DependencyGraph := { edges : dict string (gset str) }.

(** [DependencyGraph()]: an empty [defaultdict(set)]. *)
Definition new_graph : DependencyGraph := {| edges := [] |}.

(** [self.edges[source]] on the [defaultdict(set)]. *)
Definition edges_of (g : DependencyGraph) (source : string) : gset str :=
  default ∅ (dict_get (edges g) source).

(** One iteration of the loop of [add]: [if target: self.edges[source].add(target)]. *)
Definition add_target (source : string) (g : DependencyGraph) (target : str) : DependencyGraph :=
  match target with
  | [] => g
  | _ :: _ => {| edges := dict_set (edges g) source (edges_of g source ∪ {[ target ]}) |}
  end.

Definition add (g : DependencyGraph) (source : string) (targets : list str) : DependencyGraph :=
  match targets with
  | [] => g
  | _ :: _ => fold_left (add_target source) targets g
  end.

Definition to_serializable (g : DependencyGraph) : dict string (list str) :=
  map (fun kv => (fst kv, py_sorted id str_ltb false (elements (snd kv)))) (dict_items (edges g)).

Definition edge_count (g : DependencyGraph) : nat :=
  sum (map (fun targets : gset str => size targets) (dict_values (edges g))).

(** The reference list serialized for [source] (empty when [source] has no
    entry), and the number of copies of a reference in a list. *)
Definition serialized_refs (g : DependencyGraph) (source : string) : list str :=
  default [] (dict_get (to_serializable g) source).

Definition copies (r : str) (l : list str) : nat :=
  length (filter (fun x => x = r) l).

(** The references of a sequence that [add] keeps. *)
Definition nonempty (ts : list str) : list str := filter (fun t => t ≠ []) ts.

(** Every source has a reference, and no reference is the empty string. *)
Definition well_formed (g : DependencyGraph) : Prop :=
  Forall (fun kv : string * gset str => snd kv ≠ ∅ ∧ [] ∉ snd kv) (edges g).

(** The states a graph can be in: created empty, then only [add]. *)
Inductive reachable : DependencyGraph → Prop :=
| reachable_new : reachable new_graph
| reachable_add g source targets :
    reachable g → reachable (add g source targets).

(** ** [bytes.decode]

    The UTF-8 decoder of CPython. An ill-formed sequence is reported over
    its maximal valid prefix (one byte for a bad start byte, the bytes read
    so far for a bad continuation byte, the whole tail for a truncated
    sequence); [on_error] says what to do with the decoding of the rest. *)

Definition is_continuation (b : N) : bool := (0x80 <=? b)%N && (b <? 0xC0)%N.

Section Utf8.
Context {R : Type} (emit : N → R → R) (on_error : R → R) (stop : R).

Fixpoint utf8_scan (s : bytes) : R :=
  match s with
  | [] => stop
  | b1 :: s1 =>
      if (b1 <? 0x80)%N then emit b1 (utf8_scan s1)
      else if (b1 <? 0xC2)%N then on_error (utf8_scan s1)
      else if (b1 <? 0xE0)%N then
        match s1 with
        | [] => on_error stop
        | b2 :: s2 =>
            if is_continuation b2
            then emit ((b1 - 0xC0) * 64 + (b2 - 0x80))%N (utf8_scan s2)
            else on_error (utf8_scan s1)
        end
      else if (b1 <? 0xF0)%N then
        match s1 with
        | [] => on_error stop
        | b2 :: s2 =>
            if negb (is_continuation b2)
               || (if (b2 <? 0xA0)%N then (b1 =? 0xE0)%N else (b1 =? 0xED)%N)
            then on_error (utf8_scan s1)
            else
              match s2 with
              | [] => on_error stop
              | b3 :: s3 =>
                  if is_continuation b3
                  then emit ((b1 - 0xE0) * 4096 + (b2 - 0x80) * 64 + (b3 - 0x80))%N
                            (utf8_scan s3)
                  else on_error (utf8_scan s2)
              end
        end
      else if (b1 <? 0xF5)%N then
        match s1 with
        | [] => on_error stop
        | b2 :: s2 =>
            if negb (is_continuation b2)
               || (if (b2 <? 0x90)%N then (b1 =? 0xF0)%N else (b1 =? 0xF4)%N)
            then on_error (utf8_scan s1)
            else
              match s2 with
              | [] => on_error stop
              | b3 :: s3 =>
                  if negb (is_continuation b3) then on_error (utf8_scan s2)
                  else
                    match s3 with
                    | [] => on_error stop
                    | b4 :: s4 =>
                        if is_continuation b4
                        then emit ((b1 - 0xF0) * 262144 + (b2 - 0x80) * 4096
                                   + (b3 - 0x80) * 64 + (b4 - 0x80))%N
                                  (utf8_scan s4)
                        else on_error (utf8_scan s3)
                    end
              end
        end
      else on_error (utf8_scan s1)
  end.
End Utf8.

(** [b.decode()]: strict, raises at the first ill-formed sequence. *)
Definition decode (b : bytes) : result str :=
  utf8_scan (fun c k => rbind k (fun t => Ok (c :: t)))
            (fun _ => Raise UnicodeDecodeError) (Ok []) b.

(** [b.decode(errors="ignore")]: ill-formed sequences are dropped. *)
Definition decode_ignore (b : bytes) : str :=
  utf8_scan (fun c k => c :: k) (fun k => k) [] b.

(** [b[start:stop]] for non-negative indices. *)
Definition slice {A} (l : list A) (start stop : nat) : list A :=
  take (stop - start) (drop start l).

(** ** Regular expressions

    The fragment of [re] syntax the module's patterns use, and a
    backtracking matcher for it: alternatives are tried left to right and
    quantifiers are greedy. Quantifiers only occur on single-character
    classes in the source patterns. *)

Inductive regex :=
| Eps
| Lit (s : str)                      (* literal text *)
| Chr (p : N → bool)                 (* one character of a class *)
| Rep (p : N → bool) (least : nat)   (* [p*] is [Rep p 0], [p+] is [Rep p 1] *)
| Opt (p : N → bool)                 (* [p?] *)
| Bol                                (* [^] under [re.MULTILINE] *)
| Seq (r1 r2 : regex)
| Alt (r1 r2 : regex)
| Group (n : nat) (r : regex)        (* the [n]-th capturing group *)
| Backref (n : nat).                 (* [\n] *)

Definition seq (rs : list regex) : regex := foldr Seq Eps rs.

Definition captures := dict nat str.

Fixpoint strip_prefix (l s : str) : option str :=
  match l, s with
  | [], _ => Some s
  | _ :: _, [] => None
  | a :: l', b :: s' => if (a =? b)%N then strip_prefix l' s' else None
  end.

Section Matcher.
Context {X : Type}.

(** The continuation receives the character before the current position
    ([None] at the start of the text), the rest of the text, the groups. *)
Definition cont := option N → str → captures → option X.

Definition or_else (a b : option X) : option X :=
  match a with Some x => Some x | None => b end.

Fixpoint match_rep (p : N → bool) (least : nat) (prev : option N) (s : str)
    (caps : captures) (k : cont) : option X :=
  let stop := match least with 0 => k prev s caps | S _ => None end in
  match s with
  | c :: s' =>
      if p c then or_else (match_rep p (pred least) (Some c) s' caps k) stop
      else stop
  | [] => stop
  end.

Definition match_lit (l : str) (prev : option N) (s : str) (caps : captures)
    (k : cont) : option X :=
  match strip_prefix l s with
  | Some s' => k (match l with [] => prev | _ :: _ => last l end) s' caps
  | None => None
  end.

Fixpoint rmatch (r : regex) (prev : option N) (s : str) (caps : captures)
    (k : cont) : option X :=
  match r with
  | Eps => k prev s caps
  | Lit l => match_lit l prev s caps k
  | Chr p =>
      match s with
      | c :: s' => if p c then k (Some c) s' caps else None
      | [] => None
      end
  | Rep p least => match_rep p least prev s caps k
  | Opt p =>
      match s with
      | c :: s' => if p c then or_else (k (Some c) s' caps) (k prev s caps)
                   else k prev s caps
      | [] => k prev s caps
      end
  | Bol =>
      match prev with
      | None => k prev s caps
      | Some c => if (c =? 10)%N then k prev s caps else None
      end
  | Seq r1 r2 => rmatch r1 prev s caps (fun prev' s' caps' => rmatch r2 prev' s' caps' k)
  | Alt r1 r2 => or_else (rmatch r1 prev s caps k) (rmatch r2 prev s caps k)
  | Group n r1 =>
      rmatch r1 prev s caps
        (fun prev' s' caps' => k prev' s' (dict_set caps' n (take (length s - length s') s)))
  | Backref n =>
      match dict_get caps n with
      | Some l => match_lit l prev s caps k
      | None => None
      end
  end.
End Matcher.

(** A match object: the number of characters matched and the groups. *)
Record Match := { span : nat; groups : captures }.

(** [m.group(n)], [None] for a group that did not take part in the match. *)
Definition group (m : Match) (n : nat) : option str := dict_get (groups m) n.

(** [pattern.match] anchored at the current position. *)
Definition match_here (r : regex) (prev : option N) (s : str) : option Match :=
  rmatch r prev s []
    (fun _ s' caps => Some {| span := length s - length s'; groups := caps |}).

(** [pattern.finditer]: non-overlapping matches, leftmost first. After a
    match of [n] characters the next [n - 1] positions are skipped. (No
    pattern of this module matches the empty string, so sre's special rule
    for empty matches never applies.) *)
Fixpoint finditer_from (r : regex) (prev : option N) (s : str) (skip : nat) : list Match :=
  match s with
  | [] => match match_here r prev [] with Some m => [m] | None => [] end
  | c :: s' =>
      match skip with
      | S n => finditer_from r (Some c) s' n
      | 0 =>
          match match_here r prev s with
          | Some m => m :: finditer_from r (Some c) s' (pred (span m))
          | None => finditer_from r (Some c) s' 0
          end
      end
  end.

Definition finditer (r : regex) (s : str) : list Match := finditer_from r None s 0.

(** [pattern.findall] for a pattern with exactly one group: the group's
    text, the empty string when the group did not take part. *)
Definition findall1 (r : regex) (s : str) : list str :=
  map (fun m => default [] (group m 1)) (finditer r s).

(** *** Character classes *)

(** [\s] on [str] patterns: the characters for which [str.isspace] holds. *)
Definition is_space (c : N) : bool :=
  ((0x09 <=? c) && (c <=? 0x0D) || (0x1C <=? c) && (c <=? 0x20)
   || (c =? 0x85) || (c =? 0xA0) || (c =? 0x1680)
   || (0x2000 <=? c) && (c <=? 0x200A)
   || (c =? 0x2028) || (c =? 0x2029) || (c =? 0x202F) || (c =? 0x205F)
   || (c =? 0x3000))%N.

Definition quote : N := 34.       (* the double quote *)
Definition apostrophe : N := 39.
Definition is_quote (c : N) : bool := (c =? quote)%N || (c =? apostrophe)%N.

(** ** The Tree-sitter binding

    [tree_sitter_languages.get_language], [get_parser], [Parser.parse],
    [Language.query] and [Query.captures]. Each may raise. A capture is a
    node (its byte range) and the name of the capture. *)

Record Node := { start_byte : nat; end_byte : nat }.

Record tree_sitter := {
  Language : Type;
  Parser : Type;
  Tree : Type;
  Query : Type;
  get_language : string → result Language;
  get_parser : string → result Parser;
  parse : Parser → bytes → result Tree;
  query : Language → str → result Query;
  query_captures : Query → Tree → result (list (Node * string));
}.

(** ** Supported languages *)

Definition LANGUAGE_MAP : dict string string :=
  [ (".c", "c"); (".h", "c"); (".cpp", "cpp"); (".hpp", "cpp"); (".cppm", "cpp");
    (".S", "c"); (".py", "python"); (".sh", "bash"); (".lua", "lua"); (".pl", "perl") ].

Definition DEFAULT_OMIT : gset string := {[ ".git"; "build"; "_build"; "third_party" ]}.

(** ** Extraction strategies *)

Definition _strip_quotes (raw : str) : str :=
  match raw, last raw with
  | first :: _, Some final =>
      if (2 <=? length raw)%nat
         && (is_quote first || (first =? 60)%N)
         && ((final =? first)%N || (final =? 62)%N)
      then
        if ((first =? 60)%N && (final =? 62)%N) || (first =? final)%N
        then slice raw 1 (length raw - 1)
        else raw
      else raw
  | _, _ => raw
  end.

Definition asm_include_re : regex :=
  seq [ Bol; Rep is_space 0; Alt (Lit (octets "%include")) (Lit (octets ".include"));
        Rep is_space 1; Group 1 (Opt is_quote);
        Group 2 (Rep (fun c => negb (is_space c || is_quote c)) 1); Backref 1 ].

Definition _regex_asm_includes (source_text : str) : list str :=
  map (fun m => default [] (group m 2)) (finditer asm_include_re source_text).

Definition c_include_re : regex :=
  seq [ Bol; Rep is_space 0; Lit (octets "#"); Rep is_space 0; Lit (octets "include");
        Rep is_space 1; Chr (fun c => (c =? 60)%N || (c =? quote)%N);
        Group 1 (Rep (fun c => negb ((c =? 62)%N || (c =? quote)%N)) 1);
        Chr (fun c => (c =? 62)%N || (c =? quote)%N) ].

Definition _regex_c_includes (source_text : str) : list str :=
  findall1 c_include_re source_text.

Definition lua_require_re : regex :=
  seq [ Lit (octets "require"); Rep is_space 0; Lit (octets "("); Rep is_space 0;
        Chr is_quote; Group 1 (Rep (fun c => negb (is_quote c)) 1); Chr is_quote;
        Rep is_space 0; Lit (octets ")") ].

Definition _regex_lua_requires (source_text : str) : list str :=
  findall1 lua_require_re source_text.

Definition bash_source_re : regex :=
  seq [ Bol; Rep is_space 0; Alt (Lit (octets "source")) (Lit (octets "."));
        Rep is_space 1; Group 1 (Rep (fun c => negb (is_space c)) 1) ].

Definition _regex_bash_sources (source_text : str) : list str :=
  findall1 bash_source_re source_text.

Definition c_query : str :=
  octets "(preproc_include path: [(string_literal) (system_lib_string)] @include)".

Definition python_query : str :=
  octets "(import_statement (dotted_name) @module)" ++ [10%N]
  ++ octets "(import_from_statement module_name: (dotted_name) @module)".

Definition bash_query : str :=
  octets "((command name: (command_name) @cmd argument: (word) @path)"
  ++ octets " (#match? @cmd " ++ [quote] ++ octets "source|\." ++ [quote] ++ octets "))".

Definition lua_query : str :=
  octets "((function_call name: (identifier) @func arguments: (arguments (string) @mod))"
  ++ octets " (#eq? @func " ++ [quote] ++ octets "require" ++ [quote] ++ octets "))".

Definition perl_query : str :=
  octets "((use_statement module: (scoped_identifier) @module))".

(** The loop over the captures, shared by the five extractors:
    [[
    for node, capture in captures:
        if capture == name:
            out.append(post(source_bytes[node.start_byte : node.end_byte].decode()))
    ]]
    It returns the list as it stands when the loop ends, and the exception
    that ended it, if any. *)
Fixpoint capture_loop (name : string) (post : str → str) (source_bytes : bytes)
    (caps : list (Node * string)) (out : list str) : list str * option exn :=
  match caps with
  | [] => (out, None)
  | (node, capture) :: rest =>
      if decide (capture = name) then
        match decode (slice source_bytes (start_byte node) (end_byte node)) with
        | Ok text => capture_loop name post source_bytes rest (out ++ [post text])
        | Raise e => (out, Some e)
        end
      else capture_loop name post source_bytes rest out
  end.

Section Extraction.
(** [\w] on [str] patterns, from the interpreter's Unicode tables. *)
Variable is_word : N → bool.
Variable ts : tree_sitter.

Definition perl_use_re : regex :=
  seq [ Bol; Rep is_space 0; Lit (octets "use"); Rep is_space 1;
        Group 1 (Rep (fun c => is_word c || (c =? 58)%N) 1) ].

Definition _regex_perl_uses (source_text : str) : list str :=
  findall1 perl_use_re source_text.

Definition python_import_re : regex :=
  seq [ Bol; Rep is_space 0;
        Alt (seq [ Lit (octets "from"); Rep is_space 1;
                   Group 1 (Rep (fun c => is_word c || (c =? 46)%N) 1);
                   Rep is_space 1; Lit (octets "import") ])
            (seq [ Lit (octets "import"); Rep is_space 1;
                   Group 2 (Rep (fun c => is_word c || (c =? 46)%N) 1) ]) ].

(** [module = match.group(1) or match.group(2)], kept when truthy. *)
Definition _regex_python_imports (source_text : str) : list str :=
  flat_map
    (fun m =>
       let module :=
         match group m 1 with
         | Some (c :: g) => Some (c :: g)
         | _ => group m 2
         end in
       match module with
       | Some (c :: g) => [c :: g]
       | _ => []
       end)
    (finditer python_import_re source_text).

Definition _query_c_includes (source_bytes : bytes) (language_id : string)
  : result (list str) :=
  language ← get_language ts language_id;
  parser ← get_parser ts language_id;
  tree ← parse ts parser source_bytes;
  q ← query ts language c_query;
  caps ← query_captures ts q tree;
  match capture_loop "include" _strip_quotes source_bytes caps [] with
  | (_, Some e) => Raise e
  | (includes, None) =>
      Ok (match includes with
          | [] => includes ++ _regex_c_includes (decode_ignore source_bytes)
          | _ :: _ => includes
          end)
  end.

(** The body shared by the four extractors that guard the query with
    [try ... except Exception]:
    [[
    language = get_language(language_id)
    parser = get_parser(language_id)
    tree = parser.parse(source_bytes)
    out = []
    try:
        query = language.query(query_text)
        for node, capture in query.captures(tree.root_node): ...
    except Exception:
        out.extend(fallback(source_bytes.decode(errors="ignore")))
    if not out:
        out.extend(fallback(source_bytes.decode(errors="ignore")))
    return out
    ]] *)
Definition guarded_query (query_text : str) (name : string) (post : str → str)
    (fallback : str → list str) (source_bytes : bytes) (language_id : string)
  : result (list str) :=
  language ← get_language ts language_id;
  parser ← get_parser ts language_id;
  tree ← parse ts parser source_bytes;
  let out :=
    match (q ← query ts language query_text; query_captures ts q tree) with
    | Raise _ => [] ++ fallback (decode_ignore source_bytes)
    | Ok caps =>
        match capture_loop name post source_bytes caps [] with
        | (out, Some _) => out ++ fallback (decode_ignore source_bytes)
        | (out, None) => out
        end
    end in
  Ok (match out with
      | [] => out ++ fallback (decode_ignore source_bytes)
      | _ :: _ => out
      end).

Definition _query_python_imports : bytes → string → result (list str) :=
  guarded_query python_query "module" (fun t => t) _regex_python_imports.

Definition _query_bash_sources : bytes → string → result (list str) :=
  guarded_query bash_query "path" (fun t => t) _regex_bash_sources.

Definition _query_lua_requires : bytes → string → result (list str) :=
  guarded_query lua_query "mod" _strip_quotes _regex_lua_requires.

Definition _query_perl_uses : bytes → string → result (list str) :=
  guarded_query perl_query "module" (fun t => t) _regex_perl_uses.

Definition QUERY_DISPATCH : dict string (bytes → string → result (list str)) :=
  [ ("c", _query_c_includes); ("cpp", _query_c_includes);
    ("python", _query_python_imports); ("bash", _query_bash_sources);
    ("lua", _query_lua_requires); ("perl", _query_perl_uses) ].
End Extraction.

(** ** Paths and the language classifier *)

(** A path relative to the scan root, as its components. *)
Definition Path := list string.

(** [path.name] *)
Definition name (p : Path) : string := default "" (last p).

(** [s.rfind(".")], counting from [i]. *)
Fixpoint rfind_dot (s : string) (i : nat) : option nat :=
  match s with
  | EmptyString => None
  | String c s' =>
      match rfind_dot s' (S i) with
      | Some j => Some j
      | None => if decide (c = "."%char) then Some i else None
      end
  end.

(** [path.suffix] of [pathlib]: the final component from its last dot on,
    unless that dot is its first or its last character. *)
Definition suffix (p : Path) : string :=
  match rfind_dot (name p) 0 with
  | Some i =>
      if (0 <? i)%nat && (i <? String.length (name p) - 1)%nat
      then substring i (String.length (name p) - i) (name p)
      else ""
  | None => ""
  end.

(** [str(path)] *)
Definition path_str (p : Path) : string := String.concat "/" p.

Definition detect_language (path : Path) : option string :=
  dict_get LANGUAGE_MAP (suffix path).

(** ** The orchestrator *)

(** What [root.rglob("*")] yields: the path relative to the root, whether
    it is a regular file, and what [read_bytes] returns for it. *)
Record Entry := { path : Path; is_file : bool; read_bytes : bytes }.

Definition iter_repository_files (tree : list Entry) (omit : gset string) : list Entry :=
  filter (fun entry =>
            is_file entry = true
            ∧ ¬ Exists (fun part => part ∈ omit) (path entry))
         tree.

Definition Graphs := dict string DependencyGraph.
Definition Counter := dict string nat.

(** [counts[k]] and [counts.get(k, 0)] *)
Definition count_of (counts : Counter) (k : string) : nat :=
  default 0 (dict_get counts k).

Section Orchestrator.
Variable is_word : N → bool.
Variable ts : tree_sitter.

Definition analyze_file (entry : Entry) : result (option string * list str) :=
  match detect_language (path entry) with
  | None => Ok (None, [])
  | Some language_id =>
      let source_bytes := read_bytes entry in
      match dict_get (QUERY_DISPATCH is_word ts) language_id with
      | Some extractor =>
          dependencies ← extractor source_bytes language_id;
          Ok (Some language_id, dependencies)
      | None =>
          if decide (suffix (path entry) = ".S")
          then Ok (Some language_id, _regex_asm_includes (decode_ignore source_bytes))
          else Ok (Some language_id, [])
      end
  end.

(** One iteration of the loop of [build_dependency_graph]. *)
Definition scan_file (state : Graphs * Counter) (entry : Entry)
  : result (Graphs * Counter) :=
  let '(graphs, language_counts) := state in
  analysis ← analyze_file entry;
  match analysis with
  | (None, _) => Ok (graphs, language_counts)
  | (Some language_id, dependencies) =>
      let rel_path := path_str (path entry) in
      let graph := default new_graph (dict_get graphs language_id) in
      Ok (dict_set graphs language_id (add graph rel_path dependencies),
          dict_set language_counts language_id (count_of language_counts language_id + 1))
  end.

Fixpoint scan_files (state : Graphs * Counter) (entries : list Entry)
  : result (Graphs * Counter) :=
  match entries with
  | [] => Ok state
  | entry :: rest => state' ← scan_file state entry; scan_files state' rest
  end.

Definition build_dependency_graph (tree : list Entry) (omit : gset string)
  : result (Graphs * Counter) :=
  scan_files ([], []) (iter_repository_files tree omit).
End Orchestrator.

(** ** The aggregator *)

Record LanguageSummary := {
  ls_files : nat;
  ls_edges : nat;
  ls_top_emitters : list (string * nat);
}.

Record Totals := { t_languages : nat; t_files : nat; t_edges : nat }.

Record Summary := { s_languages : dict string LanguageSummary; s_totals : Totals }.

Definition degree_counter (g : DependencyGraph) : dict string nat :=
  map (fun st => (fst st, size (snd st))) (dict_items (edges g)).

Definition heavy_hitters (g : DependencyGraph) : list (string * nat) :=
  take 10 (py_sorted snd Nat.ltb true (dict_items (degree_counter g))).

Definition summarize_graphs (graphs : Graphs) (counts : Counter) : Summary :=
  {| s_languages :=
       fold_left
         (fun languages lg =>
            dict_set languages (fst lg)
              {| ls_files := count_of counts (fst lg);
                 ls_edges := edge_count (snd lg);
                 ls_top_emitters := heavy_hitters (snd lg) |})
         (dict_items graphs) [];
     s_totals :=
       {| t_languages := length graphs;
          t_files := sum (dict_values counts);
          t_edges := sum (map edge_count (dict_values graphs)) |} |}.

(** What the loop of [build_dependency_graph] maintains: the graphs and
    the counts have the same languages, in the same order, and every
    recorded count is positive. *)
Definition tallied (state : Graphs * Counter) : Prop :=
  dict_keys (fst state) = dict_keys (snd state)
  ∧ NoDup (dict_keys (fst state))
  ∧ Forall (fun kv : string * nat => 0 < snd kv) (snd state).

(** The files of one language among the entries. *)
Definition files_of (language : string) (entries : list Entry) : list Entry :=
  filter (fun entry => detect_language (path entry) = Some language) entries.

(** ** Sample inputs

    A grammar binding whose answers are fixed in advance, the ASCII part of
    [\w], and a few source files. *)

Definition scripted (language tree q : result unit)
    (caps : result (list (Node * string))) : tree_sitter :=
  {| Language := unit; Parser := unit; Tree := unit; Query := unit;
     get_language := fun _ => language;
     get_parser := fun _ => Ok tt;
     parse := fun _ _ => tree;
     query := fun _ _ => q;
     query_captures := fun _ _ => caps |}.

(** A grammar that parses everything and captures nothing. *)
Definition silent : tree_sitter := scripted (Ok tt) (Ok tt) (Ok tt) (Ok []).

Definition ascii_word (c : N) : bool :=
  ((48 <=? c) && (c <=? 57) || (65 <=? c) && (c <=? 90)
   || (97 <=? c) && (c <=? 122) || (c =? 95))%N.

(** The two lines [#include "a.h"] and [#include <b.h>]. *)
Definition two_includes : bytes :=
  octets "#include " ++ [quote] ++ octets "a.h" ++ [quote; 10%N]
  ++ octets "#include <b.h>" ++ [10%N].

Definition quoted_a_h : bytes := [quote] ++ octets "a.h" ++ [quote].
Definition bracketed_b_h : bytes := octets "<b.h>".

(** The line [%include "defs.inc"]. *)
Definition asm_source : bytes :=
  octets "%include " ++ [quote] ++ octets "defs.inc" ++ [quote; 10%N].

(** The line [#include "?.h"] where [?] is the octet 0xFF. *)
Definition latin1_include : bytes :=
  octets "#include " ++ [quote; 255%N] ++ octets ".h" ++ [quote; 10%N].

Definition import_os : bytes := octets "import os" ++ [10%N].

(** A graph whose sources have out-degrees 1, 5, 3, 5 in insertion order. *)
Definition degrees_1535 : DependencyGraph :=
  let refs := map octets ["a.h"; "b.h"; "c.h"; "d.h"; "e.h"] in
  add (add (add (add new_graph "lo.c" (take 1 refs)) "x.c" refs) "mid.c" (take 3 refs))
      "y.c" refs.

(** A tree with two C files, a Python file without imports, a README and a
    vendored C file. *)
Definition sample_tree : list Entry :=
  [ {| path := ["src"; "a.c"]; is_file := true; read_bytes := two_includes |};
    {| path := ["src"]; is_file := false; read_bytes := [] |};
    {| path := ["tools"; "empty.py"]; is_file := true; read_bytes := [] |};
    {| path := ["README.md"]; is_file := true; read_bytes := import_os |};
    {| path := ["third_party"; "z.c"]; is_file := true; read_bytes := two_includes |};
    {| path := ["src"; "b.h"]; is_file := true; read_bytes := [] |} ].

(** An assembly file, a C file with an include path that is not UTF-8, and
    a Python file. *)
Definition head_S : Entry :=
  {| path := ["boot"; "head.S"]; is_file := true; read_bytes := asm_source |}.

Definition bad_c : Entry :=
  {| path := ["src"; "bad.c"]; is_file := true; read_bytes := latin1_include |}.

Definition os_py : Entry :=
  {| path := ["tools"; "os.py"]; is_file := true; read_bytes := import_os |}.

(** A grammar that captures the bytes [start, stop) as [@include]. *)
Definition capturing (start stop : nat) : tree_sitter :=
  scripted (Ok tt) (Ok tt) (Ok tt)
           (Ok [({| start_byte := start; end_byte := stop |}, "include")]).

(** A grammar whose [get_language], [parse] or [query] raises. *)
Definition no_language : tree_sitter :=
  scripted (Raise (LibraryError "get_language")) (Ok tt) (Ok tt) (Ok []).
Definition no_parse : tree_sitter :=
  scripted (Ok tt) (Raise (LibraryError "parse")) (Ok tt) (Ok []).
Definition no_query : tree_sitter :=
  scripted (Ok tt) (Ok tt) (Raise (LibraryError "query")) (Ok []).

(** ** Notions used by the further properties *)

(** What a match of [r] does: from the text [s] and the groups [caps] it
    leaves the text [s'] and the groups [caps']. *)
Fixpoint consumes (r : regex) (s : str) (caps : captures) (s' : str)
    (caps' : captures) : Prop :=
  match r with
  | Eps | Bol => s' = s ∧ caps' = caps
  | Lit l => s = l ++ s' ∧ caps' = caps
  | Chr p => ∃ c, s = c :: s' ∧ p c = true ∧ caps' = caps
  | Rep p least =>
      ∃ l, s = l ++ s' ∧ Forall (fun c => p c = true) l ∧ least ≤ length l
           ∧ caps' = caps
  | Opt p => (s' = s ∨ ∃ c, s = c :: s' ∧ p c = true) ∧ caps' = caps
  | Seq r1 r2 =>
      ∃ s1 caps1, consumes r1 s caps s1 caps1 ∧ consumes r2 s1 caps1 s' caps'
  | Alt r1 r2 => consumes r1 s caps s' caps' ∨ consumes r2 s caps s' caps'
  | Group n r1 =>
      ∃ caps1, consumes r1 s caps s' caps1
               ∧ caps' = dict_set caps1 n (take (length s - length s') s)
  | Backref n => ∃ l, dict_get caps n = Some l ∧ s = l ++ s' ∧ caps' = caps
  end.

(** The dependencies [analyze_file] returns for an entry, none when it
    raises. *)
Definition dependencies_of (is_word : N → bool) (ts : tree_sitter)
    (entry : Entry) : list str :=
  match analyze_file is_word ts entry with
  | Ok (_, dependencies) => dependencies
  | Raise _ => []
  end.

(** The graph of a language after the pass, empty when there is none. *)
Definition graph_of (graphs : Graphs) (language : string) : DependencyGraph :=
  default new_graph (dict_get graphs language).

(** The texts of the captures named [name], when each is valid UTF-8. *)
Definition captured_texts (name : string) (source_bytes : bytes)
    (caps : list (Node * string)) : list (result str) :=
  map (fun nc => decode (slice source_bytes (start_byte (fst nc)) (end_byte (fst nc))))
      (filter (fun nc => snd nc = name) caps).

(** The line [import os], then the line [import ?] where [?] is the octet
    0xFF. *)
Definition import_os_then_latin1 : bytes :=
  octets "import os" ++ [10%N] ++ octets "import " ++ [255%N; 10%N].

(** * Properties *)

(** ** Dictionaries *)

Section DictFacts.
Context {K V : Type} `{EqDecision K}.
Implicit Types (d : dict K V) (k : K) (v : V).

Lemma dict_get_set_eq d k v : dict_get (dict_set d k v) k = Some v.
Proof.
  induction d as [|[k' v'] d IH]; simpl.
  - by rewrite decide_True.
  - destruct (decide (k' = k)) as [->|Hne]; simpl.
    + by rewrite decide_True.
    + by rewrite decide_False.
Qed.

Lemma dict_get_set_ne d k k' v :
  k ≠ k' → dict_get (dict_set d k v) k' = dict_get d k'.
Proof.
  intros Hne. induction d as [|[k0 v0] d IH]; simpl.
  - by rewrite decide_False.
  - destruct (decide (k0 = k)) as [->|Hk]; simpl.
    + by rewrite !decide_False.
    + by rewrite IH.
Qed.

Lemma dict_set_id d k v : dict_get d k = Some v → dict_set d k v = d.
Proof.
  induction d as [|[k' v'] d IH]; simpl; [done|].
  destruct (decide (k' = k)) as [->|Hne]; intros Hget.
  - by inversion Hget.
  - by rewrite IH.
Qed.

Lemma dict_get_elem_of d k v : dict_get d k = Some v → (k, v) ∈ d.
Proof.
  induction d as [|[k' v'] d IH]; simpl; [done|].
  destruct (decide (k' = k)) as [->|Hne]; intros Hget.
  - inversion Hget. left.
  - right. by apply IH.
Qed.


Lemma dict_keys_set d k v :
  dict_keys (dict_set d k v)
  = if decide (k ∈ dict_keys d) then dict_keys d else dict_keys d ++ [k].
Proof.
  induction d as [|[k' v'] d IH]; simpl.
  - done.
  - destruct (decide (k' = k)) as [->|Hne]; simpl.
    + destruct (decide (k ∈ k :: dict_keys d)) as [Hin|Hin]; [done|].
      destruct Hin. left.
    + rewrite IH. destruct (decide (k ∈ dict_keys d)) as [Hin|Hin];
        destruct (decide (k ∈ k' :: dict_keys d)) as [Hin'|Hin']; try done.
      * destruct Hin'. by right.
      * apply elem_of_cons in Hin' as [?|?]; congruence.
Qed.

Lemma dict_set_Forall (P : K * V → Prop) d k v :
  Forall P d → P (k, v) → Forall P (dict_set d k v).
Proof.
  intros Hd Hkv. induction Hd as [|[k' v'] d Hx Hd IH]; simpl.
  - by repeat constructor.
  - destruct (decide (k' = k)); by constructor.
Qed.

Lemma dict_keys_set_NoDup d k v :
  NoDup (dict_keys d) → NoDup (dict_keys (dict_set d k v)).
Proof.
  intros Hd. rewrite dict_keys_set. case_decide; [done|].
  apply NoDup_app. split_and!; [done| |apply NoDup_singleton].
  intros x Hx ->%list_elem_of_singleton. done.
Qed.
End DictFacts.

(** ** Sorting *)

Section SortedFacts.
Context {A K : Type} (key : A → K) (lt : K → K → bool).

Lemma insert_stable_Permutation x l : insert_stable key lt x l ≡ₚ x :: l.
Proof.
  induction l as [|y l IH]; simpl; [done|].
  destruct (lt (key y) (key x)); [|done].
  rewrite IH. apply Permutation_swap.
Qed.

Lemma stable_sort_Permutation l : stable_sort key lt l ≡ₚ l.
Proof.
  induction l as [|x l IH]; simpl; [done|].
  by rewrite insert_stable_Permutation, IH.
Qed.

Lemma py_sorted_Permutation reverse l : py_sorted key lt reverse l ≡ₚ l.
Proof.
  unfold py_sorted. destruct reverse.
  - by rewrite reverse_Permutation, stable_sort_Permutation, reverse_Permutation.
  - apply stable_sort_Permutation.
Qed.

Lemma py_sorted_length reverse l : length (py_sorted key lt reverse l) = length l.
Proof. apply Permutation_length, py_sorted_Permutation. Qed.

(** Stability: a predicate that never holds of two elements the sort
    tells apart selects the same sub-list before and after sorting. *)
Section Stable.
Context (P : A → Prop) `{∀ x, Decision (P x)}.
Hypothesis P_class : ∀ x y, lt (key y) (key x) = true → P x → P y → False.

Lemma insert_stable_filter x l :
  filter P (insert_stable key lt x l) = filter P (x :: l).
Proof.
  induction l as [|y l IH]; simpl; [done|].
  destruct (lt (key y) (key x)) eqn:Hlt; [|done].
  rewrite !filter_cons in *.
  destruct (decide (P y)) as [Hy|Hy], (decide (P x)) as [Hx|Hx];
    try (by rewrite IH).
  destruct (P_class x y Hlt Hx Hy).
Qed.

Lemma stable_sort_filter l : filter P (stable_sort key lt l) = filter P l.
Proof.
  induction l as [|x l IH]; simpl; [done|].
  rewrite insert_stable_filter, !filter_cons, IH. done.
Qed.
End Stable.
End SortedFacts.

Lemma StronglySorted_reverse {A} (R : relation A) l :
  StronglySorted R l → StronglySorted (flip R) (reverse l).
Proof.
  induction 1 as [|x l Hl IH Hx]; [constructor|].
  rewrite reverse_cons. apply StronglySorted_app. split_and!.
  - intros a b Ha ->%list_elem_of_singleton.
    rewrite Forall_forall in Hx. apply Hx. by apply elem_of_reverse.
  - done.
  - repeat constructor.
Qed.

Section SortedByDegree.
Context {A : Type} (key : A → nat).

Lemma insert_stable_sorted x l :
  StronglySorted (fun a b => (key a ≤ key b)%nat) l →
  StronglySorted (fun a b => (key a ≤ key b)%nat) (insert_stable key Nat.ltb x l).
Proof.
  induction 1 as [|y l Hl IH Hy]; simpl; [by repeat constructor|].
  destruct (key y <? key x) eqn:Hlt.
  - apply Nat.ltb_lt in Hlt. constructor; [done|].
    rewrite insert_stable_Permutation. constructor; [lia|done].
  - apply Nat.ltb_ge in Hlt. constructor; [by constructor|].
    constructor; [done|]. eapply Forall_impl; [exact Hy|]. simpl; lia.
Qed.

Lemma stable_sort_sorted l :
  StronglySorted (fun a b => (key a ≤ key b)%nat) (stable_sort key Nat.ltb l).
Proof. induction l; simpl; [constructor|by apply insert_stable_sorted]. Qed.

(** [sorted(l, key=..., reverse=True)] is in descending order of the key
    and keeps elements of equal key in the order of [l]. *)
Lemma py_sorted_descending l :
  StronglySorted (fun a b => (key b ≤ key a)%nat) (py_sorted key Nat.ltb true l).
Proof. apply (StronglySorted_reverse _ _ (stable_sort_sorted _)). Qed.

Lemma py_sorted_stable l d :
  filter (fun a => key a = d) (py_sorted key Nat.ltb true l)
  = filter (fun a => key a = d) l.
Proof.
  unfold py_sorted. rewrite filter_reverse, stable_sort_filter.
  - by rewrite filter_reverse, reverse_involutive.
  - intros x y Hlt%Nat.ltb_lt; lia.
Qed.
End SortedByDegree.

(** ** The graph *)

Lemma edges_eta g : {| edges := edges g |} = g.
Proof. by destruct g. Qed.

Lemma add_target_edges_of source g target :
  target ≠ [] →
  dict_get (edges (add_target source g target)) source
  = Some (edges_of g source ∪ {[ target ]}).
Proof. destruct target; [done|]. intros _. simpl. apply dict_get_set_eq. Qed.

Lemma add_target_other source source' g target :
  source ≠ source' →
  dict_get (edges (add_target source g target)) source'
  = dict_get (edges g) source'.
Proof. intros Hne. destruct target; [done|]. simpl. by apply dict_get_set_ne. Qed.

Lemma add_target_member source g target refs :
  dict_get (edges g) source = Some refs → target ∈ refs →
  add_target source g target = g.
Proof.
  intros Hget Hin. destruct target as [|c t]; [done|]. simpl.
  unfold edges_of. rewrite Hget. simpl.
  replace (refs ∪ {[c :: t]}) with refs by set_solver.
  rewrite dict_set_id by done. apply edges_eta.
Qed.

Lemma nonempty_cons c t ts : nonempty ((c :: t) :: ts) = (c :: t) :: nonempty ts.
Proof. done. Qed.

Lemma nonempty_nil_cons ts : nonempty ([] :: ts) = nonempty ts.
Proof. done. Qed.

Lemma fold_add_target_get source ts g :
  dict_get (edges (fold_left (add_target source) ts g)) source
  = match nonempty ts with
    | [] => dict_get (edges g) source
    | _ :: _ => Some (edges_of g source ∪ list_to_set (nonempty ts))
    end.
Proof.
  revert g. induction ts as [|t ts IH]; intros g; [done|].
  cbn [fold_left]. rewrite IH. destruct t as [|c t].
  - by rewrite nonempty_nil_cons.
  - rewrite nonempty_cons. unfold edges_of at 1.
    rewrite add_target_edges_of by done. cbn [default].
    destruct (nonempty ts) eqn:Hf; f_equal; set_solver.
Qed.

Lemma fold_add_target_other source source' ts g :
  source ≠ source' →
  dict_get (edges (fold_left (add_target source) ts g)) source'
  = dict_get (edges g) source'.
Proof.
  intros Hne. revert g. induction ts as [|t ts IH]; intros g; simpl; [done|].
  by rewrite IH, add_target_other.
Qed.

(** The reference set of [source] after [add]: the old set and the
    non-empty new references. *)
Lemma add_edges_of g source targets :
  edges_of (add g source targets) source
  = edges_of g source ∪ list_to_set (nonempty targets).
Proof.
  unfold add. destruct targets as [|t ts]; [set_solver|].
  unfold edges_of at 1. rewrite fold_add_target_get.
  destruct (nonempty (t :: ts)); simpl; [|done].
  fold (edges_of g source). set_solver.
Qed.

Lemma add_other g source source' targets :
  source ≠ source' →
  dict_get (edges (add g source targets)) source' = dict_get (edges g) source'.
Proof.
  intros Hne. unfold add. destruct targets; [done|].
  by apply fold_add_target_other.
Qed.

Lemma fold_add_target_fixed source g ts :
  (∀ t, t ∈ ts → add_target source g t = g) →
  fold_left (add_target source) ts g = g.
Proof.
  induction ts as [|t ts IH]; intros Hfix; simpl; [done|].
  rewrite Hfix by left. apply IH. intros t' Ht'. apply Hfix. by right.
Qed.

Lemma add_only_empty g source targets :
  Forall (fun t => t = []) targets → add g source targets = g.
Proof.
  intros Hall. unfold add. destruct targets; [done|].
  apply fold_add_target_fixed. intros t Ht.
  rewrite Forall_forall in Hall. by rewrite (Hall t Ht).
Qed.

Lemma add_idempotent g source targets :
  add (add g source targets) source targets = add g source targets.
Proof.
  unfold add at 1. destruct targets as [|t0 ts0] eqn:Hts; [done|].
  rewrite <- Hts. apply fold_add_target_fixed. intros t Ht.
  destruct t as [|c t]; [done|].
  assert (Hin : (c :: t) ∈ nonempty targets).
  { apply list_elem_of_filter. by split. }
  pose proof (fold_add_target_get source targets g) as Hget.
  destruct (nonempty targets) as [|u us] eqn:Hne; [by apply elem_of_nil in Hin|].
  eapply add_target_member.
  - unfold add. rewrite Hts, <- Hts. exact Hget.
  - set_solver.
Qed.

Lemma to_serializable_get g source :
  dict_get (to_serializable g) source
  = (fun refs => py_sorted id str_ltb false (elements refs))
      <$> dict_get (edges g) source.
Proof.
  unfold to_serializable, dict_items. induction (edges g) as [|[k v] d IH]; [done|].
  simpl. destruct (decide (k = source)); [done|apply IH].
Qed.

Lemma copies_Permutation r l l' : l ≡ₚ l' → copies r l = copies r l'.
Proof. intros Hp. unfold copies. by rewrite Hp. Qed.

Lemma copies_not_elem_of r l : r ∉ l → copies r l = 0.
Proof.
  unfold copies. induction l as [|x l IH]; [done|].
  intros Hr. rewrite filter_cons, decide_False.
  - apply IH. intros Hin. apply Hr. by right.
  - intros ->. apply Hr. left.
Qed.

Lemma copies_NoDup r l : NoDup l → r ∈ l → copies r l = 1.
Proof.
  induction 1 as [|x l Hx Hl IH]; [by intros ?%elem_of_nil|].
  unfold copies in *. rewrite filter_cons. intros [->|Hin]%elem_of_cons.
  - rewrite decide_True by done. simpl. f_equal. by apply copies_not_elem_of.
  - rewrite decide_False by (intros ->; done). by apply IH.
Qed.

Lemma copies_serialized g source r :
  copies r (serialized_refs g source)
  = if decide (r ∈ edges_of g source) then 1 else 0.
Proof.
  unfold serialized_refs, edges_of. rewrite to_serializable_get.
  destruct (dict_get (edges g) source) as [refs|]; simpl.
  - erewrite copies_Permutation by apply (py_sorted_Permutation id str_ltb false).
    case_decide.
    + apply copies_NoDup; [apply NoDup_elements|by apply elem_of_elements].
    + apply copies_not_elem_of. by rewrite elem_of_elements.
  - by rewrite decide_False by set_solver.
Qed.

Lemma well_formed_edges_of g source : well_formed g → [] ∉ edges_of g source.
Proof.
  intros Hg. unfold edges_of.
  destruct (dict_get (edges g) source) as [refs|] eqn:Hget; simpl; [|set_solver].
  apply dict_get_elem_of in Hget. unfold well_formed in Hg.
  rewrite Forall_forall in Hg. by apply (Hg _ Hget).
Qed.

Lemma add_target_well_formed source g target :
  well_formed g → well_formed (add_target source g target).
Proof.
  intros Hg. destruct target as [|c t]; [done|].
  apply dict_set_Forall; [done|]. simpl. split; [set_solver|].
  pose proof (well_formed_edges_of g source Hg). set_solver.
Qed.

Lemma add_well_formed g source targets :
  well_formed g → well_formed (add g source targets).
Proof.
  unfold add. destruct targets as [|t0 ts0]; [done|].
  generalize (t0 :: ts0). intros ts. revert g.
  induction ts as [|t ts IH]; intros g Hg; simpl; [done|].
  by apply IH, add_target_well_formed.
Qed.

Lemma reachable_well_formed g : reachable g → well_formed g.
Proof.
  induction 1; [constructor|by apply add_well_formed].
Qed.

(** ** Claims about the graph *)

(** C4. In every graph state, [edge_count()] equals the sum of the lengths
    of the per-source reference lists returned by [to_serializable()]. *)
Theorem edge_count_serialized g :
  edge_count g = sum (map length (dict_values (to_serializable g))).
Proof.
  unfold edge_count, to_serializable, dict_values, dict_items.
  induction (edges g) as [|[k v] d IH]; [done|].
  cbn [map sum foldr fst snd]. fold (sum (map (fun targets : gset str => size targets) (map snd d))).
  rewrite IH, py_sorted_length. done.
Qed.

(** C5, as stated, fails for the empty reference string: a sequence that
    holds it twice leaves no copy of it in the source's set. *)
Lemma add_empty_reference_twice :
  let targets := [octets "a.h"; []; []] in
  copies [] targets = 2
  ∧ copies [] (serialized_refs (add new_graph "a.c" targets) "a.c") ≠ 1
  ∧ [] ∉ edges_of (add new_graph "a.c" targets) "a.c".
Proof.
  split; [done|].
  assert (H : [] ∉ edges_of (add new_graph "a.c" [octets "a.h"; []; []]) "a.c").
  { apply well_formed_edges_of, reachable_well_formed. repeat constructor. }
  split; [|done]. rewrite copies_serialized. by rewrite decide_False.
Qed.

(** C5, amended. [add] twice with the same arguments leaves the graph as
    [add] once does; [add] with an empty sequence changes nothing; every
    non-empty reference of the sequence, however often it occurs there, has
    exactly one copy in the source's serialized set; and the source's set
    after [add] is its old set with the non-empty references of the
    sequence (an empty reference string is dropped). *)
Theorem add_idempotent_dedup g source :
  (∀ targets, add (add g source targets) source targets = add g source targets)
  ∧ add g source [] = g
  ∧ (∀ targets r, r ≠ [] → r ∈ targets →
       copies r (serialized_refs (add g source targets) source) = 1)
  ∧ (∀ targets, edges_of (add g source targets) source
                = edges_of g source ∪ list_to_set (nonempty targets)).
Proof.
  split_and!.
  - intros targets. apply add_idempotent.
  - done.
  - intros targets r Hr Hin. rewrite copies_serialized, decide_True; [done|].
    rewrite add_edges_of. apply elem_of_union_r, elem_of_list_to_set.
    apply list_elem_of_filter. by split.
  - intros targets. apply add_edges_of.
Qed.

Lemma add_idempotent_dedup_witness :
  let g := add new_graph "a.c" [octets "x.h"] in
  let targets := [octets "a.h"; octets "b.h"; octets "a.h"] in
  add (add g "a.c" targets) "a.c" targets = add g "a.c" targets
  ∧ copies (octets "a.h") targets = 2
  ∧ copies (octets "a.h") (serialized_refs (add g "a.c" targets) "a.c") = 1.
Proof.
  pose proof (add_idempotent_dedup (add new_graph "a.c" [octets "x.h"]) "a.c")
    as (Hidem & _ & Hone & _).
  split_and!.
  - apply Hidem.
  - reflexivity.
  - apply Hone; [discriminate|]. left.
Defined.

(** C9. In every reachable state each source of the graph maps to a
    non-empty reference set and no reference is the empty string; [add]
    with only empty-string references creates no entry and changes
    nothing. *)
Theorem reachable_sources_nonempty g :
  reachable g →
  (∀ source refs, (source, refs) ∈ edges g → refs ≠ ∅ ∧ [] ∉ refs)
  ∧ (∀ source, [] ∉ edges_of g source)
  ∧ (∀ source targets, Forall (fun t => t = []) targets →
       add g source targets = g).
Proof.
  intros Hg%reachable_well_formed. split_and!.
  - intros source refs Hin. unfold well_formed in Hg.
    rewrite Forall_forall in Hg. apply (Hg _ Hin).
  - intros source. by apply well_formed_edges_of.
  - intros source targets. apply add_only_empty.
Qed.

Lemma reachable_sources_nonempty_witness :
  let g := add (add new_graph "a.c" [octets "a.h"; []]) "b.c" [[]] in
  (∀ source refs, (source, refs) ∈ edges g → refs ≠ ∅ ∧ [] ∉ refs)
  ∧ dict_keys (edges g) = ["a.c"].
Proof.
  split.
  - apply reachable_sources_nonempty. repeat constructor.
  - reflexivity.
Defined.

(** ** The orchestrator *)

Ltac unfold_result := unfold mbind, result_bind, rbind in *.

Section OrchestratorFacts.
Variable is_word : N → bool.
Variable ts : tree_sitter.

#[local] Abbreviation analyze := (analyze_file is_word ts).
#[local] Abbreviation scan := (scan_file is_word ts).
#[local] Abbreviation scan_all := (scan_files is_word ts).
#[local] Abbreviation build := (build_dependency_graph is_word ts).

Lemma analyze_file_unsupported entry :
  detect_language (path entry) = None → analyze entry = Ok (None, []).
Proof. intros H. unfold analyze_file. by rewrite H. Qed.

(** The language [analyze_file] reports is the one of the extension. *)
Lemma analyze_file_language entry language dependencies :
  analyze entry = Ok (language, dependencies) →
  language = detect_language (path entry).
Proof.
  unfold analyze_file.
  destruct (detect_language (path entry)) as [id|]; [|congruence].
  destruct (dict_get _ id) as [extractor|].
  - unfold_result. destruct (extractor _ _); congruence.
  - case_decide; congruence.
Qed.

Lemma analyze_file_returns entry :
  ¬ raises (analyze entry) →
  ∃ dependencies,
    analyze entry = Ok (detect_language (path entry), dependencies).
Proof.
  destruct (analyze entry) as [[language dependencies]|e] eqn:H; [|done].
  intros _. exists dependencies. by rewrite (analyze_file_language _ _ _ H).
Qed.

Lemma scan_file_unsupported state entry :
  detect_language (path entry) = None → scan state entry = Ok state.
Proof.
  intros H. unfold scan_file. destruct state as [graphs counts].
  by rewrite analyze_file_unsupported.
Qed.

Lemma scan_file_supported graphs counts entry language dependencies :
  analyze entry = Ok (Some language, dependencies) →
  scan (graphs, counts) entry
  = Ok (dict_set graphs language
          (add (default new_graph (dict_get graphs language))
               (path_str (path entry)) dependencies),
        dict_set counts language (count_of counts language + 1)).
Proof. intros H. unfold scan_file. by rewrite H. Qed.

Lemma scan_files_app state entries1 entries2 :
  scan_all state (entries1 ++ entries2)
  = state' ← scan_all state entries1; scan_all state' entries2.
Proof.
  revert state. induction entries1 as [|e es IH]; intros state; [done|].
  simpl. unfold_result. destruct (scan state e); [apply IH|done].
Qed.

Lemma count_of_set counts language language' n :
  count_of (dict_set counts language n) language'
  = if decide (language = language') then n else count_of counts language'.
Proof.
  unfold count_of. case_decide as Heq.
  - subst. by rewrite dict_get_set_eq.
  - by rewrite dict_get_set_ne.
Qed.

Lemma scan_file_tallied state state' entry :
  tallied state → scan state entry = Ok state' → tallied state'.
Proof.
  destruct state as [graphs counts]. intros (Hkeys & Hnd & Hpos).
  unfold scan_file. unfold_result.
  destruct (analyze entry) as [[[language|] dependencies]|]; [| |done].
  - intros [= <-]. unfold tallied; simpl in *. split_and!.
    + rewrite !dict_keys_set, Hkeys. done.
    + by apply dict_keys_set_NoDup.
    + apply dict_set_Forall; [done|simpl; lia].
  - by intros [= <-].
Qed.

Lemma scan_files_tallied state state' entries :
  tallied state → scan_all state entries = Ok state' → tallied state'.
Proof.
  revert state. induction entries as [|e es IH]; intros state Hstate; simpl.
  - by intros [= <-].
  - unfold_result. destruct (scan state e) as [state1|] eqn:H1; [|done].
    apply IH. by eapply scan_file_tallied.
Qed.


(** When no file makes the extraction raise, the loop runs to its end and
    each language's count grows by the number of its files. *)
Lemma scan_files_counts entries graphs counts :
  (∀ entry, entry ∈ entries → ¬ raises (analyze entry)) →
  ∃ graphs' counts',
    scan_all (graphs, counts) entries = Ok (graphs', counts')
    ∧ ∀ language,
        count_of counts' language
        = count_of counts language + length (files_of language entries).
Proof.
  revert graphs counts.
  induction entries as [|e es IH]; intros graphs counts Hok.
  - exists graphs, counts. split; [done|]. intros language. simpl. lia.
  - destruct (analyze_file_returns e) as [deps He]; [apply Hok; left|].
    cbn [scan_files]. unfold_result.
    destruct (detect_language (path e)) as [id|] eqn:Hid.
    + rewrite (scan_file_supported _ _ _ _ _ He).
      edestruct IH as (graphs' & counts' & Hrun & Hcount);
        [intros entry Hin; apply Hok; by right|].
      exists graphs', counts'. split; [exact Hrun|].
      intros language. rewrite Hcount, count_of_set.
      unfold files_of. rewrite filter_cons. rewrite Hid.
      destruct (decide (id = language)) as [->|Hne].
      * rewrite decide_True by done. simpl. lia.
      * rewrite decide_False by congruence. done.
    + rewrite scan_file_unsupported by done.
      edestruct IH as (graphs' & counts' & Hrun & Hcount);
        [intros entry Hin; apply Hok; by right|].
      exists graphs', counts'. split; [exact Hrun|].
      intros language. rewrite Hcount.
      unfold files_of. rewrite filter_cons. rewrite Hid.
      by rewrite decide_False by congruence.
Qed.
End OrchestratorFacts.

(** ** The aggregator *)

Lemma dict_set_fresh {K V} `{EqDecision K} (d : dict K V) k v :
  k ∉ dict_keys d → dict_set d k v = d ++ [(k, v)].
Proof.
  induction d as [|[k' v'] d IH]; simpl; [done|].
  intros Hk. destruct (decide (k' = k)) as [->|Hne].
  - destruct Hk. left.
  - rewrite IH; [done|]. intros Hin. apply Hk. by right.
Qed.

Lemma fold_dict_set_fresh {K V W} `{EqDecision K} (f : K * V → W)
    (l : dict K V) (acc : dict K W) :
  NoDup (dict_keys acc ++ dict_keys l) →
  fold_left (fun out kv => dict_set out (fst kv) (f kv)) l acc
  = acc ++ map (fun kv => (fst kv, f kv)) l.
Proof.
  revert acc. induction l as [|[k v] l IH]; intros acc Hnd; simpl.
  - by rewrite app_nil_r.
  - simpl in Hnd. apply NoDup_app in Hnd as (Hacc & Hdisj & Hl).
    apply NoDup_cons in Hl as [Hk Hl].
    assert (Hfresh : k ∉ dict_keys acc).
    { intros Hin. apply (Hdisj _ Hin). left. }
    rewrite dict_set_fresh by done. rewrite IH.
    + by rewrite <- app_assoc.
    + unfold dict_keys. rewrite map_app. simpl. rewrite <- app_assoc. simpl.
      apply NoDup_app. split_and!; [done| |by apply NoDup_cons].
      intros x Hx [->|Hin]%elem_of_cons; [done|].
      apply (Hdisj _ Hx). by right.
Qed.

(** With one graph per language, the summary has one entry per graph, in
    the order of the graphs. *)
Lemma summarize_graphs_languages graphs counts :
  NoDup (dict_keys graphs) →
  s_languages (summarize_graphs graphs counts)
  = map (fun lg => (fst lg,
                    {| ls_files := count_of counts (fst lg);
                       ls_edges := edge_count (snd lg);
                       ls_top_emitters := heavy_hitters (snd lg) |}))
        graphs.
Proof.
  intros Hnd. unfold summarize_graphs, dict_items. simpl.
  by rewrite (fold_dict_set_fresh
                (fun lg => {| ls_files := count_of counts (fst lg);
                              ls_edges := edge_count (snd lg);
                              ls_top_emitters := heavy_hitters (snd lg) |})).
Qed.

Lemma dict_get_map {K V W} `{EqDecision K} (f : K * V → W) (d : dict K V) k :
  dict_get (map (fun kv => (fst kv, f kv)) d) k
  = match dict_get d k with Some v => Some (f (k, v)) | None => None end.
Proof.
  induction d as [|[k' v'] d IH]; simpl; [done|].
  destruct (decide (k' = k)) as [->|Hne]; [done|apply IH].
Qed.

Lemma dict_keys_map {K V W} (f : K * V → W) (d : dict K V) :
  dict_keys (map (fun kv => (fst kv, f kv)) d) = dict_keys d.
Proof. unfold dict_keys. rewrite map_map. done. Qed.

(** The sources of a graph stay in the order of their first insertion:
    [add] puts a new source last and leaves the others where they are. *)
Lemma add_keys g source targets :
  dict_keys (edges (add g source targets))
  = if decide (source ∈ dict_keys (edges g)) then dict_keys (edges g)
    else match nonempty targets with
         | [] => dict_keys (edges g)
         | _ :: _ => dict_keys (edges g) ++ [source]
         end.
Proof.
  assert (Hfold : ∀ ts g,
    dict_keys (edges (fold_left (add_target source) ts g))
    = if decide (source ∈ dict_keys (edges g)) then dict_keys (edges g)
      else match nonempty ts with
           | [] => dict_keys (edges g)
           | _ :: _ => dict_keys (edges g) ++ [source]
           end).
  { clear. induction ts as [|t ts IH]; intros g.
    - simpl. by case_decide.
    - cbn [fold_left]. rewrite IH. destruct t as [|c t].
      + by rewrite nonempty_nil_cons.
      + rewrite nonempty_cons. simpl. rewrite dict_keys_set.
        destruct (decide (source ∈ dict_keys (edges g))) as [Hin|Hin].
        * by rewrite decide_True.
        * rewrite decide_True; [done|]. apply elem_of_app. right. left. }
  unfold add. destruct targets as [|t ts]; [|apply Hfold].
  simpl. by case_decide.
Qed.

(** ** Claims about the summary *)

(** C3. For every per-language graph, the top-emitter list of the summary
    has at most 10 entries; it is the head of a listing of all sources of
    the graph with their out-degrees that is in descending order of
    out-degree and keeps sources of equal out-degree in the order of their
    insertion into the graph. In particular, sources of out-degrees 1, 5, 3,
    5 (in insertion order) are listed as the two of degree 5 in insertion
    order, then the one of degree 3, then the one of degree 1. *)
Theorem top_emitters_ranked graphs counts language graph :
  NoDup (dict_keys graphs) →
  dict_get graphs language = Some graph →
  ∃ entry rest,
    dict_get (s_languages (summarize_graphs graphs counts)) language = Some entry
    ∧ length (ls_top_emitters entry) ≤ 10
    ∧ ls_top_emitters entry ++ rest ≡ₚ dict_items (degree_counter graph)
    ∧ StronglySorted (fun a b => snd b ≤ snd a) (ls_top_emitters entry ++ rest)
    ∧ (∀ d, filter (fun item => snd item = d) (ls_top_emitters entry ++ rest)
            = filter (fun item => snd item = d) (dict_items (degree_counter graph)))
    ∧ dict_keys (degree_counter graph) = dict_keys (edges graph)
    ∧ heavy_hitters degrees_1535
      = [("x.c", 5); ("y.c", 5); ("mid.c", 3); ("lo.c", 1)].
Proof.
  intros Hnd Hget.
  exists {| ls_files := count_of counts language;
            ls_edges := edge_count graph;
            ls_top_emitters := heavy_hitters graph |},
         (drop 10 (py_sorted snd Nat.ltb true (dict_items (degree_counter graph)))).
  cbn [ls_top_emitters].
  assert (Hall : heavy_hitters graph
                 ++ drop 10 (py_sorted snd Nat.ltb true (dict_items (degree_counter graph)))
                 = py_sorted snd Nat.ltb true (dict_items (degree_counter graph)))
    by apply take_drop.
  rewrite !Hall. split_and!.
  - rewrite summarize_graphs_languages by done.
    rewrite (dict_get_map
               (fun lg => {| ls_files := count_of counts (fst lg);
                             ls_edges := edge_count (snd lg);
                             ls_top_emitters := heavy_hitters (snd lg) |})).
    by rewrite Hget.
  - unfold heavy_hitters. rewrite length_take. lia.
  - apply py_sorted_Permutation.
  - apply py_sorted_descending.
  - intros d. apply py_sorted_stable.
  - apply (dict_keys_map (fun st => size (snd st))).
  - vm_compute. reflexivity.
Qed.

Lemma top_emitters_ranked_witness :
  ∃ entry,
    dict_get (s_languages (summarize_graphs [("c", degrees_1535)] [("c", 4)])) "c"
    = Some entry
    ∧ ls_top_emitters entry = [("x.c", 5); ("y.c", 5); ("mid.c", 3); ("lo.c", 1)]
    ∧ dict_keys (edges degrees_1535) = ["lo.c"; "x.c"; "mid.c"; "y.c"].
Proof.
  destruct (top_emitters_ranked [("c", degrees_1535)] [("c", 4)] "c" degrees_1535)
    as (entry & rest & Hentry & _); [apply NoDup_singleton|reflexivity|].
  exists entry. split; [exact Hentry|].
  vm_compute in Hentry. injection Hentry as <-. split; vm_compute; reflexivity.
Defined.

(** ** Claims about the orchestrator *)

Lemma iter_repository_files_app tree1 tree2 omit :
  iter_repository_files (tree1 ++ tree2) omit
  = iter_repository_files tree1 omit ++ iter_repository_files tree2 omit.
Proof. apply filter_app. Qed.

(** C7. A file whose extension is not registered in the language map
    leaves the graphs and the counts as they are, wherever it stands in the
    tree and whatever it contains: [analyze_file] reports no language and
    no dependencies for it without calling any extractor. For every file
    the language reported is the entry of the language map for the file's
    extension, looked up as it is written. *)
Theorem unregistered_extension_skipped is_word ts entry :
  dict_get LANGUAGE_MAP (suffix (path entry)) = None →
  (∀ state, scan_file is_word ts state entry = Ok state)
  ∧ (∀ tree1 tree2 omit,
       build_dependency_graph is_word ts (tree1 ++ entry :: tree2) omit
       = build_dependency_graph is_word ts (tree1 ++ tree2) omit)
  ∧ (∀ other, path other = path entry →
       analyze_file is_word ts other = Ok (None, []))
  ∧ (∀ other language dependencies,
       analyze_file is_word ts other = Ok (language, dependencies) →
       language = dict_get LANGUAGE_MAP (suffix (path other))).
Proof.
  intros Hext.
  assert (Hskip : ∀ state, scan_file is_word ts state entry = Ok state).
  { intros state. by apply scan_file_unsupported. }
  split_and!; [done| | |apply analyze_file_language].
  - intros tree1 tree2 omit. unfold build_dependency_graph.
    rewrite !iter_repository_files_app, !scan_files_app.
    unfold_result. destruct (scan_files _ _ _ (iter_repository_files tree1 omit));
      [|done].
    unfold iter_repository_files at 1. rewrite filter_cons.
    case_decide; [|done]. cbn [scan_files]. unfold_result. by rewrite Hskip.
  - intros other Hpath. apply analyze_file_unsupported. by rewrite Hpath.
Qed.

(** The extension lookup is case-sensitive. *)
Lemma detect_language_case_sensitive :
  detect_language ["boot"; "head.S"] = Some "c"
  ∧ detect_language ["boot"; "head.s"] = None
  ∧ detect_language ["src"; "main.c"] = Some "c"
  ∧ detect_language ["src"; "MAIN.C"] = None
  ∧ detect_language ["tools"; "scan.py"] = Some "python"
  ∧ detect_language ["tools"; "scan.PY"] = None.
Proof. by vm_compute. Qed.

Lemma unregistered_extension_skipped_witness :
  let readme := {| path := ["README.md"]; is_file := true; read_bytes := import_os |} in
  let shout := {| path := ["src"; "MAIN.C"]; is_file := true; read_bytes := two_includes |} in
  dict_get LANGUAGE_MAP (suffix (path shout)) = None
  ∧ scan_file ascii_word silent ([], []) shout = Ok ([], [])
  ∧ build_dependency_graph ascii_word silent ([readme] ++ shout :: []) DEFAULT_OMIT
    = build_dependency_graph ascii_word silent ([readme] ++ []) DEFAULT_OMIT.
Proof.
  intros readme shout.
  assert (Hext : dict_get LANGUAGE_MAP (suffix (path shout)) = None) by reflexivity.
  destruct (unregistered_extension_skipped ascii_word silent shout Hext)
    as (Hscan & Hbuild & _).
  split_and!; [exact Hext|apply Hscan|apply Hbuild].
Defined.

(** X22. When the extraction raises for no eligible file, the pass ends
    with, for each language, a count equal to the number of eligible files
    of that language: each such file adds exactly one, whatever references
    were extracted for it, none included. *)
Theorem file_tally is_word ts tree omit :
  (∀ entry, entry ∈ iter_repository_files tree omit →
     ¬ raises (analyze_file is_word ts entry)) →
  ∃ graphs counts,
    build_dependency_graph is_word ts tree omit = Ok (graphs, counts)
    ∧ ∀ language,
        count_of counts language
        = length (files_of language (iter_repository_files tree omit)).
Proof.
  intros Hok.
  destruct (scan_files_counts is_word ts _ [] [] Hok)
    as (graphs & counts & Hrun & Hcount).
  exists graphs, counts. split; [exact Hrun|].
  intros language. by rewrite Hcount.
Qed.

(** One file, any state, any dependencies: the count of its language grows
    by one and the other counts stay. *)
Lemma scan_file_counts_one is_word ts graphs counts entry language dependencies :
  analyze_file is_word ts entry = Ok (Some language, dependencies) →
  ∃ graphs' counts',
    scan_file is_word ts (graphs, counts) entry = Ok (graphs', counts')
    ∧ count_of counts' language = count_of counts language + 1
    ∧ ∀ other, other ≠ language → count_of counts' other = count_of counts other.
Proof.
  intros H. rewrite (scan_file_supported _ _ _ _ _ _ _ H).
  eexists _, _. split; [done|]. split.
  - by rewrite count_of_set, decide_True.
  - intros other Hne. by rewrite count_of_set, decide_False.
Qed.

Lemma sample_tree_analyzed entry :
  entry ∈ iter_repository_files sample_tree DEFAULT_OMIT →
  ¬ raises (analyze_file ascii_word silent entry).
Proof.
  intros Hin.
  assert (Hfiles : iter_repository_files sample_tree DEFAULT_OMIT
                   = [ {| path := ["src"; "a.c"]; is_file := true;
                          read_bytes := two_includes |};
                       {| path := ["tools"; "empty.py"]; is_file := true;
                          read_bytes := [] |};
                       {| path := ["README.md"]; is_file := true;
                          read_bytes := import_os |};
                       {| path := ["src"; "b.h"]; is_file := true;
                          read_bytes := [] |} ]) by by vm_compute.
  rewrite Hfiles in Hin.
  repeat (apply elem_of_cons in Hin as [->|Hin]; [by vm_compute|]).
  by apply elem_of_nil in Hin.
Qed.

Lemma file_tally_witness :
  ∃ graphs counts,
    build_dependency_graph ascii_word silent sample_tree DEFAULT_OMIT
    = Ok (graphs, counts)
    ∧ count_of counts "c" = 2 ∧ count_of counts "python" = 1
    ∧ count_of counts "lua" = 0
    ∧ (edge_count <$> dict_get graphs "python") = Some 0.
Proof.
  destruct (file_tally ascii_word silent sample_tree DEFAULT_OMIT
              sample_tree_analyzed) as (graphs & counts & Hrun & Hcount).
  exists graphs, counts. split; [exact Hrun|].
  rewrite !Hcount. split_and!; try by vm_compute.
  vm_compute in Hrun. injection Hrun as <- <-. by vm_compute.
Defined.

(** C8 does not hold of the code: an eligible file of a supported language
    for which the extraction raises is not counted. The C extractor lets the
    exception of an undecodable include path through, the loop stops before
    the count of the file's language is incremented, and the pass returns
    no tally at all, the count of the Python file scanned before included.
    A Python file is counted whatever happens to its query: with a failing
    query and no import it has no reference and is counted once. *)
Theorem raising_file_not_counted :
  detect_language (path bad_c) = Some "c"
  ∧ iter_repository_files [os_py; bad_c] DEFAULT_OMIT = [os_py; bad_c]
  ∧ scan_file ascii_word (capturing 9 14) ([], []) os_py
    = Ok ([("python", add new_graph "tools/os.py" [octets "os"])], [("python", 1)])
  ∧ scan_file ascii_word (capturing 9 14)
      ([("python", add new_graph "tools/os.py" [octets "os"])], [("python", 1)])
      bad_c
    = Raise UnicodeDecodeError
  ∧ build_dependency_graph ascii_word (capturing 9 14) [os_py; bad_c] DEFAULT_OMIT
    = Raise UnicodeDecodeError
  ∧ scan_file ascii_word no_query ([], [])
      {| path := ["tools"; "empty.py"]; is_file := true; read_bytes := [] |}
    = Ok ([("python", new_graph)], [("python", 1)]).
Proof. by vm_compute. Qed.



(** ** Claims about the extraction strategies *)

Section ExtractionFacts.
Variable is_word : N → bool.
Variable ts : tree_sitter.

(** Once the grammar is loaded and the file parsed, an extractor that
    guards its query returns: an exception of [query], of [captures] or of
    [decode] is caught and the fallback is run. *)
Lemma guarded_query_returns query_text name post fallback source_bytes
    language_id language parser tree :
  get_language ts language_id = Ok language →
  get_parser ts language_id = Ok parser →
  parse ts parser source_bytes = Ok tree →
  ∃ out,
    guarded_query ts query_text name post fallback source_bytes language_id
    = Ok out
    ∧ (raises (q ← query ts language query_text; query_captures ts q tree) →
       out = fallback (decode_ignore source_bytes)).
Proof.
  intros Hl Hp Ht. unfold guarded_query. unfold_result.
  rewrite Hl, Hp, Ht. eexists. split; [reflexivity|].
  destruct (query ts language query_text) as [q|]; cbv beta iota.
  - destruct (query_captures ts q tree); cbv beta iota; [done|].
    intros _. by destruct (fallback _).
  - intros _. by destruct (fallback _).
Qed.

(** The C extractor guards nothing: what [query] raises, it raises. *)
Lemma _query_c_includes_raises source_bytes language_id language parser tree e :
  get_language ts language_id = Ok language →
  get_parser ts language_id = Ok parser →
  parse ts parser source_bytes = Ok tree →
  query ts language c_query = Raise e →
  _query_c_includes ts source_bytes language_id = Raise e.
Proof.
  intros Hl Hp Ht Hq. unfold _query_c_includes. unfold_result.
  by rewrite Hl, Hp, Ht, Hq.
Qed.

(** A file with the suffix [.S] is a C file to [analyze_file]: it goes
    through the C grammar, and the branch for [_regex_asm_includes] is
    never taken. *)
Lemma analyze_file_assembly entry :
  suffix (path entry) = ".S" →
  analyze_file is_word ts entry
  = dependencies ← _query_c_includes ts (read_bytes entry) "c";
    Ok (Some "c", dependencies).
Proof.
  intros Hs. unfold analyze_file, detect_language. rewrite Hs. reflexivity.
Qed.
End ExtractionFacts.

(** C6. For a C-family file in which the grammar captures the two include
    paths ["a.h"] (quoted) and [<b.h>] (bracketed), and for the file of
    exactly these two lines when the grammar captures nothing, the
    dependencies are [a.h] and [b.h], delimiters stripped, and the
    reference set recorded for the file is exactly those two. *)
Theorem c_includes_stripped is_word ts p language_id source_bytes
    language parser tree q caps n1 n2 :
  detect_language p = Some language_id →
  language_id = "c" ∨ language_id = "cpp" →
  get_language ts language_id = Ok language →
  get_parser ts language_id = Ok parser →
  parse ts parser source_bytes = Ok tree →
  query ts language c_query = Ok q →
  query_captures ts q tree = Ok caps →
  (caps = [(n1, "include"); (n2, "include")]
   ∧ slice source_bytes (start_byte n1) (end_byte n1) = quoted_a_h
   ∧ slice source_bytes (start_byte n2) (end_byte n2) = bracketed_b_h)
  ∨ (caps = [] ∧ source_bytes = two_includes) →
  let entry := {| path := p; is_file := true; read_bytes := source_bytes |} in
  let graph := add new_graph (path_str p) [octets "a.h"; octets "b.h"] in
  analyze_file is_word ts entry = Ok (Some language_id, [octets "a.h"; octets "b.h"])
  ∧ scan_file is_word ts ([], []) entry
    = Ok ([(language_id, graph)], [(language_id, 1)])
  ∧ edges_of graph (path_str p) = {[ octets "a.h"; octets "b.h" ]}
  ∧ serialized_refs graph (path_str p) = [octets "a.h"; octets "b.h"].
Proof.
  intros Hdet Hfam Hl Hp Ht Hq Hc Hcaps entry graph.
  assert (Hdeps : _query_c_includes ts source_bytes language_id
                  = Ok [octets "a.h"; octets "b.h"]).
  { unfold _query_c_includes. unfold_result. rewrite Hl, Hp, Ht, Hq, Hc.
    destruct Hcaps as [(-> & H1 & H2)|[-> ->]].
    - cbn [capture_loop]. rewrite decide_True by done. rewrite H1.
      replace (decode quoted_a_h) with (Ok (A:=str) quoted_a_h) by by vm_compute.
      rewrite decide_True by done. rewrite H2.
      replace (decode bracketed_b_h) with (Ok (A:=str) bracketed_b_h)
        by by vm_compute.
      by vm_compute.
    - by vm_compute. }
  assert (Han : analyze_file is_word ts entry
                = Ok (Some language_id, [octets "a.h"; octets "b.h"])).
  { unfold analyze_file. cbn [path read_bytes entry]. rewrite Hdet.
    destruct Hfam as [-> | ->]; cbn [QUERY_DISPATCH dict_get].
    - rewrite decide_True by done. by rewrite Hdeps.
    - rewrite decide_False by done. rewrite decide_True by done.
      by rewrite Hdeps. }
  assert (Hset : edges_of graph (path_str p) = {[ octets "a.h"; octets "b.h" ]}).
  { unfold graph. rewrite add_edges_of.
    replace (nonempty [octets "a.h"; octets "b.h"])
      with [octets "a.h"; octets "b.h"] by by vm_compute.
    unfold edges_of. cbn [new_graph edges dict_get default list_to_set].
    set_solver. }
  split_and!; [done| |done|].
  - rewrite (scan_file_supported _ _ _ _ _ _ _ Han). done.
  - unfold serialized_refs, edges_of in *. rewrite to_serializable_get.
    destruct (dict_get (edges graph) (path_str p)) as [refs|]; simpl in *.
    + rewrite Hset.
      replace (elements ({[octets "a.h"; octets "b.h"]} : gset str))
        with (elements (list_to_set [octets "a.h"; octets "b.h"] : gset str))
        by (f_equal; set_solver).
      by vm_compute.
    + exfalso. assert (octets "a.h" ∈ (∅ : gset str)) by (rewrite Hset; set_solver).
      set_solver.
Qed.

Lemma c_includes_stripped_witness :
  analyze_file ascii_word silent
    {| path := ["src"; "a.c"]; is_file := true; read_bytes := two_includes |}
  = Ok (Some "c", [octets "a.h"; octets "b.h"])
  ∧ analyze_file ascii_word
      (scripted (Ok tt) (Ok tt) (Ok tt)
         (Ok [({| start_byte := 9; end_byte := 14 |}, "include");
              ({| start_byte := 24; end_byte := 29 |}, "include")]))
      {| path := ["inc"; "a.hpp"]; is_file := true; read_bytes := two_includes |}
    = Ok (Some "cpp", [octets "a.h"; octets "b.h"]).
Proof.
  split.
  - apply (c_includes_stripped ascii_word silent ["src"; "a.c"] "c" two_includes
             tt tt tt tt [] {| start_byte := 0; end_byte := 0 |}
             {| start_byte := 0; end_byte := 0 |});
      try reflexivity; [by left|by right].
  - apply (c_includes_stripped ascii_word
             (scripted (Ok tt) (Ok tt) (Ok tt)
                (Ok [({| start_byte := 9; end_byte := 14 |}, "include");
                     ({| start_byte := 24; end_byte := 29 |}, "include")]))
             ["inc"; "a.hpp"] "cpp" two_includes
             tt tt tt tt
             [({| start_byte := 9; end_byte := 14 |}, "include");
              ({| start_byte := 24; end_byte := 29 |}, "include")]
             {| start_byte := 9; end_byte := 14 |}
             {| start_byte := 24; end_byte := 29 |});
      try reflexivity; [by right|]. left. by vm_compute.
Defined.

(** C1 does not hold of the code: an assembly file is classified as C, so
    the C grammar is loaded for it (an exception of the grammar reaches the
    caller) and the fallback is the C include pattern, which finds nothing
    in the file; the pattern for [%include] and [.include] would find the
    include and is never run. *)
Theorem assembly_file_takes_c_grammar :
  detect_language (path head_S) = Some "c"
  ∧ _regex_asm_includes (decode_ignore (read_bytes head_S)) = [octets "defs.inc"]
  ∧ analyze_file ascii_word silent head_S = Ok (Some "c", [])
  ∧ analyze_file ascii_word no_language head_S
    = Raise (LibraryError "get_language").
Proof. by vm_compute. Qed.

(** C2 does not hold of the code: the C extractor has no [try], so an
    exception of the query or of [decode] on a captured path reaches the
    caller and ends the whole pass, where the Python extractor falls back to
    its pattern; and no extractor guards [get_language], [get_parser] and
    [parse]. *)
Theorem extractor_exceptions_escape :
  analyze_file ascii_word (capturing 9 14) bad_c = Raise UnicodeDecodeError
  ∧ build_dependency_graph ascii_word (capturing 9 14) [os_py; bad_c] DEFAULT_OMIT
    = Raise UnicodeDecodeError
  ∧ analyze_file ascii_word no_query bad_c = Raise (LibraryError "query")
  ∧ analyze_file ascii_word no_query os_py = Ok (Some "python", [octets "os"])
  ∧ analyze_file ascii_word no_parse os_py = Raise (LibraryError "parse").
Proof. by vm_compute. Qed.

(** * Further properties *)

(** ** The graph *)

Lemma dict_set_set {K V} `{EqDecision K} (d : dict K V) k v v' :
  dict_set (dict_set d k v) k v' = dict_set d k v'.
Proof.
  induction d as [|[k0 v0] d IH]; simpl.
  - by rewrite decide_True.
  - destruct (decide (k0 = k)) as [->|Hne]; simpl.
    + by rewrite decide_True.
    + by rewrite decide_False, IH.
Qed.

(** [add] in one step: nothing when no reference is non-empty, otherwise
    the source's set becomes its union with the non-empty references. *)
Lemma add_closed g source targets :
  add g source targets
  = match nonempty targets with
    | [] => g
    | _ :: _ =>
        {| edges := dict_set (edges g) source
                      (edges_of g source ∪ list_to_set (nonempty targets)) |}
    end.
Proof.
  assert (Hfold : ∀ ts g,
    fold_left (add_target source) ts g
    = match nonempty ts with
      | [] => g
      | _ :: _ =>
          {| edges := dict_set (edges g) source
                        (edges_of g source ∪ list_to_set (nonempty ts)) |}
      end).
  { clear. induction ts as [|t ts IH]; intros g; [done|].
    cbn [fold_left]. rewrite IH. destruct t as [|c t].
    - by rewrite nonempty_nil_cons.
    - rewrite nonempty_cons. unfold edges_of at 1.
      rewrite add_target_edges_of by done. cbn [default add_target edges].
      destruct (nonempty ts) as [|u us] eqn:Hne.
      + f_equal. f_equal. set_solver.
      + rewrite dict_set_set. f_equal. f_equal. set_solver. }
  unfold add. destruct targets as [|t ts]; [done|apply Hfold].
Qed.

Lemma sum_values_dict_set {V} (f : V → nat) (d : dict string V) k v :
  sum (map f (dict_values (dict_set d k v)))
  + match dict_get d k with Some old => f old | None => 0 end
  = sum (map f (dict_values d)) + f v.
Proof.
  unfold dict_values. induction d as [|[k0 v0] d IH]; simpl; [lia|].
  destruct (decide (k0 = k)) as [->|Hne]; simpl; lia.
Qed.

(** X1. [add] depends on the references only as a set: two sequences with
    the same non-empty strings, in any order and with any repetitions, give
    the same graph. *)
Theorem add_order_insensitive g source targets targets' :
  (∀ r, r ≠ [] → r ∈ targets ↔ r ∈ targets') →
  add g source targets = add g source targets'.
Proof.
  intros Hsame.
  assert (Hin : ∀ r, r ∈ nonempty targets ↔ r ∈ nonempty targets').
  { intros r. unfold nonempty. rewrite !list_elem_of_filter. naive_solver. }
  assert (Hset : (list_to_set (nonempty targets) : gset str)
                 = list_to_set (nonempty targets')) by set_solver.
  rewrite !add_closed, Hset.
  destruct (nonempty targets) as [|t ts], (nonempty targets') as [|t' ts'];
    try done.
  - specialize (Hin t'). set_solver.
  - specialize (Hin t). set_solver.
Qed.

Lemma add_order_insensitive_witness :
  add new_graph "a.c" [octets "a.h"; []; octets "b.h"; octets "a.h"]
  = add new_graph "a.c" [octets "b.h"; octets "a.h"].
Proof.
  apply add_order_insensitive. intros r Hr.
  rewrite !elem_of_cons, !elem_of_nil. naive_solver.
Defined.

(** X2. [add] only ever adds: the references a source had it keeps, the
    other sources are untouched, and the edge count grows by exactly the
    number of distinct non-empty references the source did not have. *)
Theorem add_grows g source targets :
  (∀ other, edges_of g other ⊆ edges_of (add g source targets) other)
  ∧ (∀ other, other ≠ source →
       dict_get (edges (add g source targets)) other = dict_get (edges g) other)
  ∧ edge_count (add g source targets)
    = edge_count g
      + size ((list_to_set (nonempty targets) : gset str) ∖ edges_of g source).
Proof.
  split_and!.
  - intros other. destruct (decide (other = source)) as [->|Hne].
    + rewrite add_edges_of. set_solver.
    + unfold edges_of. by rewrite add_other.
  - intros other Hne. by apply add_other.
  - rewrite add_closed. destruct (nonempty targets) as [|t ts] eqn:Hne.
    + simpl. replace ((∅ : gset str) ∖ edges_of g source) with (∅ : gset str)
        by set_solver. rewrite size_empty. lia.
    + rewrite <- Hne. unfold edge_count. cbn [edges].
      pose proof (sum_values_dict_set (fun targets : gset str => size targets)
                    (edges g) source
                    (edges_of g source ∪ list_to_set (nonempty targets))) as Hsum.
      rewrite size_union_alt in Hsum. unfold edges_of in *.
      destruct (dict_get (edges g) source) as [old|]; cbn [default] in *.
      * unfold id in *. lia.
      * unfold id in *. rewrite size_empty in Hsum. lia.
Qed.

(** *** The order of serialized references *)

Lemma str_ltb_irrefl a : str_ltb a a = false.
Proof.
  induction a as [|x a IH]; [done|]. simpl.
  by rewrite N.ltb_irrefl.
Qed.

Lemma str_ltb_trans a b c :
  str_ltb a b = true → str_ltb b c = true → str_ltb a c = true.
Proof.
  revert b c. induction a as [|x a IH]; intros [|y b] [|z c]; simpl; try done.
  destruct (N.ltb_spec x y), (N.ltb_spec y x), (N.ltb_spec y z),
    (N.ltb_spec z y), (N.ltb_spec x z), (N.ltb_spec z x);
    try done; try lia.
  apply IH.
Qed.

Lemma str_ltb_total a b : str_ltb a b = false → a ≠ b → str_ltb b a = true.
Proof.
  revert b. induction a as [|x a IH]; intros [|y b]; simpl; try done.
  destruct (N.ltb_spec x y), (N.ltb_spec y x); try done; try lia.
  intros Hlt Hne. apply IH; [done|]. intros ->. apply Hne. f_equal. lia.
Qed.

Lemma insert_stable_strict x l :
  x ∉ l →
  StronglySorted (fun a b => str_ltb a b = true) l →
  StronglySorted (fun a b => str_ltb a b = true) (insert_stable id str_ltb x l).
Proof.
  intros Hx Hl. induction Hl as [|y l Hl IH Hy]; simpl; [by repeat constructor|].
  apply not_elem_of_cons in Hx as [Hxy Hx]. unfold id.
  destruct (str_ltb y x) eqn:Hlt.
  - constructor; [by apply IH|].
    rewrite insert_stable_Permutation. by constructor.
  - assert (Hxlt : str_ltb x y = true) by (apply str_ltb_total; done).
    constructor; [by constructor|]. constructor; [done|].
    eapply Forall_impl; [exact Hy|]. intros z Hz. simpl in Hz.
    by eapply str_ltb_trans.
Qed.

Lemma stable_sort_strict l :
  NoDup l →
  StronglySorted (fun a b => str_ltb a b = true) (stable_sort id str_ltb l).
Proof.
  induction 1 as [|x l Hx Hl IH]; simpl; [constructor|].
  apply insert_stable_strict; [|done].
  by rewrite stable_sort_Permutation.
Qed.

(** X3. Serialization loses nothing and fixes the order: for every source
    the serialized list is strictly ascending in code-point order (so it has
    no duplicates), holds exactly the references of the source's set, and
    the sources come out in the graph's own order. *)
Theorem serialized_refs_sorted g source :
  StronglySorted (fun a b => str_ltb a b = true) (serialized_refs g source)
  ∧ NoDup (serialized_refs g source)
  ∧ list_to_set (serialized_refs g source) = edges_of g source
  ∧ length (serialized_refs g source) = size (edges_of g source)
  ∧ dict_keys (to_serializable g) = dict_keys (edges g).
Proof.
  assert (Hkeys : dict_keys (to_serializable g) = dict_keys (edges g)).
  { unfold to_serializable, dict_items, dict_keys. by rewrite map_map. }
  unfold serialized_refs, edges_of. rewrite to_serializable_get.
  destruct (dict_get (edges g) source) as [refs|]; simpl.
  - assert (Hperm : stable_sort id str_ltb (elements refs) ≡ₚ elements refs)
      by apply stable_sort_Permutation.
    split_and!; [| | | |done].
    + apply stable_sort_strict, NoDup_elements.
    + rewrite Hperm. apply NoDup_elements.
    + apply set_eq. intros r. rewrite elem_of_list_to_set, Hperm.
      apply elem_of_elements.
    + by rewrite Hperm.
  - split_and!; [constructor|constructor|done|done|done].
Qed.

(** ** Stripping delimiters *)

Lemma slice_middle {A} (x : A) body y :
  slice (x :: body ++ [y]) 1 (length (x :: body ++ [y]) - 1) = body.
Proof.
  unfold slice. cbn [length drop]. rewrite length_app. cbn [length].
  replace (S (length body + 1) - 1 - 1) with (length body) by lia.
  by rewrite drop_0, take_app_length.
Qed.

(** [_strip_quotes] on a string of two characters or more, by its first
    and its last character. *)
Lemma _strip_quotes_ends first body final :
  _strip_quotes (first :: body ++ [final])
  = if (is_quote first || (first =? 60)%N)
       && ((final =? first)%N || (final =? 62)%N)
       && (((first =? 60)%N && (final =? 62)%N) || (first =? final)%N)
    then body else first :: body ++ [final].
Proof.
  unfold _strip_quotes.
  replace (last (first :: body ++ [final])) with (Some final)
    by (change (first :: body ++ [final]) with ((first :: body) ++ [final]);
        by rewrite last_snoc).
  replace (2 <=? length (first :: body ++ [final])) with true.
  2:{ symmetry. apply Nat.leb_le. cbn [length]. rewrite length_app. simpl. lia. }
  rewrite slice_middle. cbn [andb].
  destruct (is_quote first || (first =? 60)%N); [|done].
  destruct ((final =? first)%N || (final =? 62)%N); [|done].
  cbn [andb]. done.
Qed.

(** X4. A string between a pair of double quotes, of apostrophes or of
    angle brackets loses exactly that pair, whatever is between them (other
    quotes included); so does a string between two [<]. *)
Theorem _strip_quotes_delimited body :
  _strip_quotes (quote :: body ++ [quote]) = body
  ∧ _strip_quotes (apostrophe :: body ++ [apostrophe]) = body
  ∧ _strip_quotes (60%N :: body ++ [62%N]) = body
  ∧ _strip_quotes (60%N :: body ++ [60%N]) = body.
Proof. by rewrite !_strip_quotes_ends. Qed.

(** X5. [_strip_quotes] returns its argument unchanged when it is shorter
    than two characters, when its first character is not a double quote,
    an apostrophe or [<], and when its last character neither repeats the
    first nor closes a [<] with a [>] (so ["a>] and [<a"] stay as they
    are). *)
Theorem _strip_quotes_unchanged raw :
  (length raw < 2 → _strip_quotes raw = raw)
  ∧ (∀ first rest, raw = first :: rest →
       is_quote first = false → first ≠ 60%N → _strip_quotes raw = raw)
  ∧ (∀ first body final, raw = first :: body ++ [final] →
       final ≠ first → ¬ (first = 60%N ∧ final = 62%N) →
       _strip_quotes raw = raw).
Proof.
  split_and!.
  - destruct raw as [|c [|c' raw]]; simpl; [done|done|lia].
  - intros first rest -> Hq Hlt. unfold _strip_quotes.
    destruct (last (first :: rest)); [|done].
    rewrite Hq. replace (first =? 60)%N with false
      by (symmetry; by apply N.eqb_neq).
    by rewrite andb_false_r.
  - intros first body final -> Hne Hpair. rewrite _strip_quotes_ends.
    replace (first =? final)%N with false
      by (symmetry; apply N.eqb_neq; congruence).
    destruct (N.eqb_spec first 60), (N.eqb_spec final 62);
      try (exfalso; by apply Hpair);
      rewrite ?andb_false_r, ?orb_false_r, ?andb_false_l; cbn [andb orb]; done.
Qed.

Lemma _strip_quotes_unchanged_witness :
  _strip_quotes [quote] = [quote]
  ∧ _strip_quotes (octets "a.h") = octets "a.h"
  ∧ _strip_quotes (quote :: octets "a" ++ [62%N]) = quote :: octets "a" ++ [62%N].
Proof.
  split_and!.
  - apply (_strip_quotes_unchanged [quote]). simpl. lia.
  - pose proof (_strip_quotes_unchanged (octets "a.h")) as (_ & Hfirst & _).
    by eapply Hfirst.
  - pose proof (_strip_quotes_unchanged (quote :: octets "a" ++ [62%N]))
      as (_ & _ & Hlast).
    eapply Hlast; [reflexivity|done|]. intros [? ?]. done.
Defined.

(** ** The extraction strategies *)

Lemma captured_texts_cons name source_bytes node capture caps :
  captured_texts name source_bytes ((node, capture) :: caps)
  = if decide (capture = name)
    then decode (slice source_bytes (start_byte node) (end_byte node))
         :: captured_texts name source_bytes caps
    else captured_texts name source_bytes caps.
Proof.
  unfold captured_texts. rewrite filter_cons. simpl.
  by destruct (decide (capture = name)).
Qed.

(** The loop over the captures, when every captured text is valid UTF-8 and
    when one is not. *)
Lemma capture_loop_ok name post source_bytes caps texts out :
  captured_texts name source_bytes caps = map Ok texts →
  capture_loop name post source_bytes caps out = (out ++ map post texts, None).
Proof.
  revert texts out. induction caps as [|[node capture] caps IH];
    intros texts out.
  - destruct texts; [|done]. intros _. simpl. by rewrite app_nil_r.
  - rewrite captured_texts_cons. cbn [capture_loop].
    destruct (decide (capture = name)); [|apply IH].
    destruct texts as [|t texts]; [done|]. intros [= Hd Hrest].
    rewrite Hd, (IH texts) by done. by rewrite <- app_assoc.
Qed.

Lemma capture_loop_raise name post source_bytes caps texts e rest out :
  captured_texts name source_bytes caps = map Ok texts ++ Raise e :: rest →
  capture_loop name post source_bytes caps out = (out ++ map post texts, Some e).
Proof.
  revert texts out. induction caps as [|[node capture] caps IH];
    intros texts out.
  - by destruct texts.
  - rewrite captured_texts_cons. cbn [capture_loop].
    destruct (decide (capture = name)); [|apply IH].
    destruct texts as [|t texts]; intros [= Hd Hrest].
    + rewrite Hd. simpl. by rewrite app_nil_r.
    + rewrite Hd, (IH texts) by done. by rewrite <- app_assoc.
Qed.

(** X6. Every language of the language map has an extractor: whenever a
    path is classified, [analyze_file] runs the extractor registered for
    that language, so its branch for assembly files and its branch without
    dependencies are never taken. *)
Theorem classified_files_dispatch is_word ts entry language_id :
  detect_language (path entry) = Some language_id →
  ∃ extractor,
    dict_get (QUERY_DISPATCH is_word ts) language_id = Some extractor
    ∧ analyze_file is_word ts entry
      = dependencies ← extractor (read_bytes entry) language_id;
        Ok (Some language_id, dependencies).
Proof.
  intros Hdet. unfold analyze_file. rewrite Hdet.
  assert (Hin : language_id ∈ ["c"; "cpp"; "python"; "bash"; "lua"; "perl"]).
  { unfold detect_language, LANGUAGE_MAP in Hdet. cbn [dict_get] in Hdet.
    repeat (case_decide; [injection Hdet as <-; set_solver|]). done. }
  repeat (apply elem_of_cons in Hin as [->|Hin]; [eexists; split; reflexivity|]).
  by apply elem_of_nil in Hin.
Qed.

Lemma classified_files_dispatch_witness :
  analyze_file ascii_word no_parse head_S
  = dependencies ← _query_c_includes no_parse (read_bytes head_S) "c";
    Ok (Some "c", dependencies).
Proof.
  destruct (classified_files_dispatch ascii_word no_parse head_S "c")
    as (extractor & Hget & Hrun); [reflexivity|].
  injection Hget as <-. exact Hrun.
Defined.

(** X7. For a Python, shell, Lua or Perl file, once the grammar is loaded
    and the file parsed, [analyze_file] returns: nothing that the query,
    the captures or the decoding of a capture raises reaches the caller. *)
Theorem guarded_languages_return is_word ts entry language_id language parser tree :
  detect_language (path entry) = Some language_id →
  language_id ∈ ["python"; "bash"; "lua"; "perl"] →
  get_language ts language_id = Ok language →
  get_parser ts language_id = Ok parser →
  parse ts parser (read_bytes entry) = Ok tree →
  ∃ dependencies,
    analyze_file is_word ts entry = Ok (Some language_id, dependencies).
Proof.
  intros Hdet Hin Hl Hp Ht. unfold analyze_file. rewrite Hdet.
  assert (Hguard : ∀ query_text name post fallback,
            ∃ out, guarded_query ts query_text name post fallback
                     (read_bytes entry) language_id = Ok out).
  { intros query_text name post fallback.
    destruct (guarded_query_returns ts query_text name post fallback
                _ _ _ _ _ Hl Hp Ht) as (out & Hout & _).
    by exists out. }
  repeat (apply elem_of_cons in Hin as [->|Hin];
          [ cbn [QUERY_DISPATCH dict_get];
            repeat (rewrite decide_False by done); rewrite decide_True by done;
            unfold _query_python_imports, _query_bash_sources,
              _query_lua_requires, _query_perl_uses;
            match goal with
            | |- context [guarded_query ts ?q ?n ?p ?f] =>
                destruct (Hguard q n p f) as [out ->]
            end;
            by eexists |]).
  by apply elem_of_nil in Hin.
Qed.

Lemma guarded_languages_return_witness :
  ∃ dependencies,
    analyze_file ascii_word no_query os_py = Ok (Some "python", dependencies).
Proof.
  apply (guarded_languages_return ascii_word no_query os_py "python" tt tt tt);
    try reflexivity. set_solver.
Defined.

Section StrategyRules.
Variable ts : tree_sitter.
Variables (source_bytes : bytes) (language_id : string).
Variables (language : Language ts) (parser : Parser ts) (tree : Tree ts).
Hypothesis loaded : get_language ts language_id = Ok language.
Hypothesis has_parser : get_parser ts language_id = Ok parser.
Hypothesis parsed : parse ts parser source_bytes = Ok tree.

Lemma guarded_query_captured query_text name post fallback q caps :
  query ts language query_text = Ok q →
  query_captures ts q tree = Ok caps →
  guarded_query ts query_text name post fallback source_bytes language_id
  = Ok (let out :=
          match capture_loop name post source_bytes caps [] with
          | (out, Some _) => out ++ fallback (decode_ignore source_bytes)
          | (out, None) => out
          end in
        match out with
        | [] => out ++ fallback (decode_ignore source_bytes)
        | _ :: _ => out
        end).
Proof.
  intros Hq Hc. unfold guarded_query. unfold_result.
  by rewrite loaded, has_parser, parsed, Hq, Hc.
Qed.

Lemma _query_c_includes_captured q caps :
  query ts language c_query = Ok q →
  query_captures ts q tree = Ok caps →
  _query_c_includes ts source_bytes language_id
  = match capture_loop "include" _strip_quotes source_bytes caps [] with
    | (_, Some e) => Raise e
    | (includes, None) =>
        Ok (match includes with
            | [] => includes ++ _regex_c_includes (decode_ignore source_bytes)
            | _ :: _ => includes
            end)
    end.
Proof.
  intros Hq Hc. unfold _query_c_includes. unfold_result.
  by rewrite loaded, has_parser, parsed, Hq, Hc.
Qed.
End StrategyRules.

(** X8. In the Python, shell, Lua and Perl extractors, an undecodable
    capture does not lose the captures before it: the result is the texts
    captured so far followed by everything the regex fallback finds in the
    file (which may name the same references again). *)
Theorem guarded_query_keeps_partial ts query_text name post fallback
    source_bytes language_id language parser tree q caps texts e rest :
  get_language ts language_id = Ok language →
  get_parser ts language_id = Ok parser →
  parse ts parser source_bytes = Ok tree →
  query ts language query_text = Ok q →
  query_captures ts q tree = Ok caps →
  captured_texts name source_bytes caps = map Ok texts ++ Raise e :: rest →
  guarded_query ts query_text name post fallback source_bytes language_id
  = Ok (map post texts ++ fallback (decode_ignore source_bytes)).
Proof.
  intros Hl Hp Ht Hq Hc Htexts.
  rewrite (guarded_query_captured ts _ _ _ _ _ Hl Hp Ht _ _ _ _ _ _ Hq Hc).
  rewrite (capture_loop_raise _ _ _ _ _ _ _ _ Htexts). cbn [app]. cbv zeta.
  destruct (map post texts ++ fallback (decode_ignore source_bytes)) eqn:Hout;
    [|done].
  apply app_eq_nil in Hout as [_ ->]. done.
Qed.

Lemma guarded_query_keeps_partial_witness :
  _query_python_imports ascii_word
    (scripted (Ok tt) (Ok tt) (Ok tt)
       (Ok [({| start_byte := 7; end_byte := 9 |}, "module");
            ({| start_byte := 17; end_byte := 18 |}, "module")]))
    import_os_then_latin1 "python"
  = Ok [octets "os"; octets "os"].
Proof.
  unfold _query_python_imports.
  rewrite (guarded_query_keeps_partial
             (scripted (Ok tt) (Ok tt) (Ok tt)
                (Ok [({| start_byte := 7; end_byte := 9 |}, "module");
                     ({| start_byte := 17; end_byte := 18 |}, "module")]))
             python_query "module" (fun t => t) (_regex_python_imports ascii_word)
             import_os_then_latin1 "python" tt tt tt tt
             [({| start_byte := 7; end_byte := 9 |}, "module");
              ({| start_byte := 17; end_byte := 18 |}, "module")]
             [octets "os"] UnicodeDecodeError []); reflexivity.
Defined.

(** X9. In the Python, shell, Lua and Perl extractors, when every capture
    decodes, the regex fallback is consulted exactly when the grammar
    captured nothing: with captures the result is their texts, in capture
    order, and the fallback adds nothing to them. *)
Theorem guarded_query_primary_or_fallback ts query_text name post fallback
    source_bytes language_id language parser tree q caps texts :
  get_language ts language_id = Ok language →
  get_parser ts language_id = Ok parser →
  parse ts parser source_bytes = Ok tree →
  query ts language query_text = Ok q →
  query_captures ts q tree = Ok caps →
  captured_texts name source_bytes caps = map Ok texts →
  guarded_query ts query_text name post fallback source_bytes language_id
  = Ok (match texts with
        | [] => fallback (decode_ignore source_bytes)
        | _ :: _ => map post texts
        end).
Proof.
  intros Hl Hp Ht Hq Hc Htexts.
  rewrite (guarded_query_captured ts _ _ _ _ _ Hl Hp Ht _ _ _ _ _ _ Hq Hc).
  rewrite (capture_loop_ok _ _ _ _ _ _ Htexts). by destruct texts.
Qed.

Lemma guarded_query_primary_or_fallback_witness :
  _query_python_imports ascii_word
    (scripted (Ok tt) (Ok tt) (Ok tt)
       (Ok [({| start_byte := 7; end_byte := 9 |}, "module")]))
    import_os_then_latin1 "python"
  = Ok [octets "os"]
  ∧ _query_python_imports ascii_word silent import_os "python" = Ok [octets "os"].
Proof.
  unfold _query_python_imports. split.
  - rewrite (guarded_query_primary_or_fallback
               (scripted (Ok tt) (Ok tt) (Ok tt)
                  (Ok [({| start_byte := 7; end_byte := 9 |}, "module")]))
               python_query "module" (fun t => t) (_regex_python_imports ascii_word)
               import_os_then_latin1 "python" tt tt tt tt
               [({| start_byte := 7; end_byte := 9 |}, "module")]
               [octets "os"]); reflexivity.
  - rewrite (guarded_query_primary_or_fallback silent
               python_query "module" (fun t => t) (_regex_python_imports ascii_word)
               import_os "python" tt tt tt tt [] []); reflexivity.
Defined.

(** X10. The C extractor, once the query has run: when every captured path
    decodes, the result is the captured paths without their delimiters, or
    what the include regex finds when nothing was captured; when a captured
    path does not decode, the extractor raises and what was captured before
    is lost. *)
Theorem _query_c_includes_rule ts source_bytes language_id language parser tree
    q caps :
  get_language ts language_id = Ok language →
  get_parser ts language_id = Ok parser →
  parse ts parser source_bytes = Ok tree →
  query ts language c_query = Ok q →
  query_captures ts q tree = Ok caps →
  (∀ texts,
     captured_texts "include" source_bytes caps = map Ok texts →
     _query_c_includes ts source_bytes language_id
     = Ok (match texts with
           | [] => _regex_c_includes (decode_ignore source_bytes)
           | _ :: _ => map _strip_quotes texts
           end))
  ∧ (∀ texts e rest,
       captured_texts "include" source_bytes caps
       = map Ok texts ++ Raise e :: rest →
       _query_c_includes ts source_bytes language_id = Raise e).
Proof.
  intros Hl Hp Ht Hq Hc.
  rewrite (_query_c_includes_captured ts _ _ _ _ _ Hl Hp Ht _ _ Hq Hc).
  split.
  - intros texts Htexts. rewrite (capture_loop_ok _ _ _ _ _ _ Htexts).
    by destruct texts.
  - intros texts e rest Htexts.
    by rewrite (capture_loop_raise _ _ _ _ _ _ _ _ Htexts).
Qed.

Lemma _query_c_includes_rule_witness :
  _query_c_includes (capturing 9 14) two_includes "c" = Ok [octets "a.h"]
  ∧ _query_c_includes (capturing 9 14) latin1_include "c" = Raise UnicodeDecodeError.
Proof.
  split.
  - pose proof (_query_c_includes_rule (capturing 9 14) two_includes "c" tt tt tt tt
                  [({| start_byte := 9; end_byte := 14 |}, "include")]
                  eq_refl eq_refl eq_refl eq_refl eq_refl) as [Hok _].
    apply (Hok [quoted_a_h]). reflexivity.
  - pose proof (_query_c_includes_rule (capturing 9 14) latin1_include "c" tt tt tt tt
                  [({| start_byte := 9; end_byte := 14 |}, "include")]
                  eq_refl eq_refl eq_refl eq_refl eq_refl) as [_ Hraise].
    apply (Hraise [] UnicodeDecodeError []). reflexivity.
Defined.

(** ** The regular expressions *)

Lemma strip_prefix_Some l s s' : strip_prefix l s = Some s' → s = l ++ s'.
Proof.
  revert s. induction l as [|a l IH]; intros [|b s]; simpl; try congruence.
  destruct (N.eqb_spec a b) as [->|]; [|done].
  intros H. by rewrite (IH _ H).
Qed.

Lemma match_rep_sound {X} p least prev s caps (k : @cont X) x :
  match_rep p least prev s caps k = Some x →
  ∃ l s' prev',
    s = l ++ s' ∧ Forall (fun c => p c = true) l ∧ least ≤ length l
    ∧ k prev' s' caps = Some x.
Proof.
  revert least prev. induction s as [|c s IH]; intros least prev; simpl.
  - destruct least; [|done]. intros H. exists [], [], prev. by repeat split.
  - assert (Hstop : match least with 0 => k prev (c :: s) caps | S _ => None end
                    = Some x →
                    ∃ l s' prev', c :: s = l ++ s'
                      ∧ Forall (fun c => p c = true) l ∧ least ≤ length l
                      ∧ k prev' s' caps = Some x).
    { destruct least; [|done]. intros H. exists [], (c :: s), prev.
      by repeat split. }
    destruct (p c) eqn:Hp; [|exact Hstop].
    destruct (match_rep p (pred least) (Some c) s caps k) as [y|] eqn:Hrec;
      simpl; [|exact Hstop].
    intros [= <-]. destruct (IH _ _ Hrec) as (l & s' & prev' & -> & Hl & Hn & Hk).
    exists (c :: l), s', prev'. split_and!; [done|by constructor|simpl; lia|done].
Qed.

(** The matcher is sound for [consumes]. *)
Lemma rmatch_sound {X} r prev s caps (k : @cont X) x :
  rmatch r prev s caps k = Some x →
  ∃ prev' s' caps', consumes r s caps s' caps' ∧ k prev' s' caps' = Some x.
Proof.
  revert prev s caps k.
  induction r as [|l|p|p least|p| |r1 IH1 r2 IH2|r1 IH1 r2 IH2|n r1 IH1|n];
    intros prev s caps k; simpl.
  - intros H. by exists prev, s, caps.
  - unfold match_lit. destruct (strip_prefix l s) as [s'|] eqn:Hl; [|done].
    intros H. apply strip_prefix_Some in Hl. by eexists _, s', caps.
  - destruct s as [|c s]; [done|]. destruct (p c) eqn:Hp; [|done].
    intros H. exists (Some c), s, caps. split; [by exists c|done].
  - intros H. apply match_rep_sound in H as (l & s' & prev' & -> & Hl & Hn & Hk).
    exists prev', s', caps. split; [by exists l|done].
  - destruct s as [|c s].
    + intros H. exists prev, [], caps. split; [by split; [left|]|done].
    + destruct (p c) eqn:Hp.
      * destruct (k (Some c) s caps) as [y|] eqn:Hk; simpl.
        -- intros [= <-]. exists (Some c), s, caps.
           split; [split; [right; by exists c|done]|done].
        -- intros H. exists prev, (c :: s), caps. split; [by split; [left|]|done].
      * intros H. exists prev, (c :: s), caps. split; [by split; [left|]|done].
  - intros H. exists prev, s, caps. split; [done|].
    destruct prev as [c|]; [|done]. by destruct (c =? 10)%N.
  - intros H. apply IH1 in H as (prev1 & s1 & caps1 & H1 & H).
    apply IH2 in H as (prev2 & s2 & caps2 & H2 & H).
    exists prev2, s2, caps2. split; [by exists s1, caps1|done].
  - destruct (rmatch r1 prev s caps k) as [y|] eqn:H1; simpl.
    + intros [= <-]. apply IH1 in H1 as (prev' & s' & caps' & Hc & Hk).
      exists prev', s', caps'. split; [by left|done].
    + intros H. apply IH2 in H as (prev' & s' & caps' & Hc & Hk).
      exists prev', s', caps'. split; [by right|done].
  - intros H. apply IH1 in H as (prev' & s' & caps' & Hc & Hk).
    eexists prev', s', _. split; [by exists caps'|done].
  - destruct (dict_get caps n) as [l|] eqn:Hget; [|done].
    unfold match_lit. destruct (strip_prefix l s) as [s'|] eqn:Hl; [|done].
    intros H. apply strip_prefix_Some in Hl. eexists _, s', caps.
    split; [by exists l|done].
Qed.

Lemma match_here_sound r prev s m :
  match_here r prev s = Some m →
  ∃ s', consumes r s [] s' (groups m) ∧ span m = length s - length s'.
Proof.
  unfold match_here. intros H.
  apply rmatch_sound in H as (prev' & s' & caps' & Hc & [= <-]).
  by exists s'.
Qed.

(** Every match of [finditer] is a match at some position of the text. *)
Lemma finditer_from_sound r m s prev skip :
  m ∈ finditer_from r prev s skip →
  ∃ pre s1 prev', s = pre ++ s1 ∧ match_here r prev' s1 = Some m.
Proof.
  revert prev skip. induction s as [|c s IH]; intros prev skip; simpl.
  - destruct (match_here r prev []) as [m'|] eqn:Hm; [|by intros ?%elem_of_nil].
    intros ->%list_elem_of_singleton. by exists [], [], prev.
  - assert (Hrest : ∀ prev skip, m ∈ finditer_from r prev s skip →
                    ∃ pre s1 prev', c :: s = pre ++ s1
                                    ∧ match_here r prev' s1 = Some m).
    { intros prev0 skip0 Hin.
      destruct (IH _ _ Hin) as (pre & s1 & prev' & -> & Hm).
      by exists (c :: pre), s1, prev'. }
    destruct skip as [|skip]; [|apply Hrest].
    destruct (match_here r prev (c :: s)) as [m'|] eqn:Hm; [|apply Hrest].
    intros [->|Hin]%elem_of_cons; [|by eapply Hrest].
    by exists [], (c :: s), prev.
Qed.

Lemma findall1_elem_of r text ref :
  ref ∈ findall1 r text →
  ∃ m pre s1 s',
    text = pre ++ s1 ∧ consumes r s1 [] s' (groups m)
    ∧ ref = default [] (group m 1).
Proof.
  unfold findall1, finditer. intros (m & -> & Hm)%list_elem_of_fmap.
  apply finditer_from_sound in Hm as (pre & s1 & prev' & -> & Hm).
  apply match_here_sound in Hm as (s' & Hc & _).
  by exists m, pre, s1, s'.
Qed.

Lemma take_app_suffix {A} (l s : list A) :
  take (length (l ++ s) - length s) (l ++ s) = l.
Proof.
  rewrite length_app. replace (length l + length s - length s) with (length l) by lia.
  apply take_app_length.
Qed.

(** X11. The include regex reports nothing that is not in the text: each
    reference it returns is non-empty, holds neither [>] nor a double
    quote, and stands in the text between an opening [<] or double quote
    and a closing [>] or double quote, after [#], [include] and at least
    one white-space character. *)
Theorem _regex_c_includes_sound text ref :
  ref ∈ _regex_c_includes text →
  ref ≠ []
  ∧ Forall (fun c => c ≠ 62%N ∧ c ≠ quote) ref
  ∧ ∃ pre sp1 sp2 sp3 opening closing post,
      text = pre ++ sp1 ++ octets "#" ++ sp2 ++ octets "include" ++ sp3
             ++ [opening] ++ ref ++ [closing] ++ post
      ∧ Forall (fun c => is_space c = true) (sp1 ++ sp2 ++ sp3)
      ∧ sp3 ≠ []
      ∧ (opening = 60%N ∨ opening = quote)
      ∧ (closing = 62%N ∨ closing = quote).
Proof.
  intros (m & pre & s1 & s' & -> & Hc & ->)%findall1_elem_of.
  unfold c_include_re, seq in Hc. cbn [foldr consumes] in Hc.
  destruct Hc as (? & ? & [-> ->] & ? & ? & (sp1 & -> & Hsp1 & _ & ->)
    & ? & ? & [-> ->] & ? & ? & (sp2 & -> & Hsp2 & _ & ->)
    & ? & ? & [-> ->] & ? & ? & (sp3 & -> & Hsp3 & Hn3 & ->)
    & ? & ? & (opening & -> & Ho & ->)
    & ? & ? & (? & (l & -> & Hl & Hnl & ->) & ->)
    & ? & ? & (closing & -> & Hcl & ->) & -> & Hgroups).
  unfold group. rewrite Hgroups, take_app_suffix. cbn [dict_set dict_get].
  destruct (decide (1 = 1)); [|done]. unfold default, from_option, id.
  split_and!.
  - intros ->. simpl in Hnl. lia.
  - eapply Forall_impl; [exact Hl|]. intros c Hc. cbn beta in Hc.
    apply negb_true_iff, orb_false_iff in Hc as [H1%N.eqb_neq H2%N.eqb_neq].
    done.
  - eexists pre, sp1, sp2, sp3, opening, closing, _. split_and!.
    + reflexivity.
    + by rewrite !Forall_app.
    + intros ->. simpl in Hn3. lia.
    + apply orb_true_iff in Ho as [?%N.eqb_eq|?%N.eqb_eq]; auto.
    + apply orb_true_iff in Hcl as [?%N.eqb_eq|?%N.eqb_eq]; auto.
Qed.

Lemma _regex_c_includes_sound_witness :
  octets "a.h" ≠ [] ∧ Forall (fun c => c ≠ 62%N ∧ c ≠ quote) (octets "a.h").
Proof.
  destruct (_regex_c_includes_sound (decode_ignore two_includes) (octets "a.h"))
    as (Hne & Hall & _); [vm_compute; left|].
  by split.
Defined.

Lemma finditer_elem_of r text m :
  m ∈ finditer r text →
  ∃ pre s1 s', text = pre ++ s1 ∧ consumes r s1 [] s' (groups m).
Proof.
  unfold finditer. intros (pre & s1 & prev' & -> & Hm)%finditer_from_sound.
  apply match_here_sound in Hm as (s' & Hc & _). by exists pre, s1, s'.
Qed.

(** X12. The assembly regex reports nothing that is not in the text: each
    reference it returns is non-empty, holds no white space and no quote,
    and stands in the text after [%include] or [.include] and at least one
    white-space character, either bare or between two equal quotes. *)
Theorem _regex_asm_includes_sound text ref :
  ref ∈ _regex_asm_includes text →
  ref ≠ []
  ∧ Forall (fun c => is_space c = false ∧ is_quote c = false) ref
  ∧ ∃ pre sp1 directive sp2 q post,
      text = pre ++ sp1 ++ directive ++ sp2 ++ q ++ ref ++ q ++ post
      ∧ (directive = octets "%include" ∨ directive = octets ".include")
      ∧ Forall (fun c => is_space c = true) (sp1 ++ sp2)
      ∧ sp2 ≠ []
      ∧ (q = [] ∨ ∃ c, q = [c] ∧ is_quote c = true).
Proof.
  unfold _regex_asm_includes. intros (m & -> & Hm)%list_elem_of_fmap.
  apply finditer_elem_of in Hm as (pre & s1 & s' & -> & Hc).
  unfold asm_include_re, seq in Hc. cbn [foldr consumes] in Hc.
  destruct Hc as (? & ? & [-> ->] & s2 & ? & (sp1 & -> & Hsp1 & _ & ->)
    & s3 & caps3 & Hdir & s4 & ? & (sp2 & Hs3 & Hsp2 & Hn2 & ->)
    & s5 & ? & (? & (Hq & ->) & ->)
    & s6 & ? & (? & (l & -> & Hl & Hnl & ->) & ->)
    & s7 & ? & (l' & Hback & -> & ->) & <- & Hgroups).
  assert (∃ directive,
            s2 = directive ++ s3 ∧ caps3 = []
            ∧ (directive = octets "%include" ∨ directive = octets ".include"))
    as (directive & -> & -> & Hdirective)
    by (destruct Hdir as [[-> ->]|[-> ->]]; eexists; eauto).
  clear Hdir. subst s3.
  assert (∃ q, s4 = q ++ l ++ l' ++ s'
               ∧ take (length s4 - length (l ++ l' ++ s')) s4 = q
               ∧ (q = [] ∨ ∃ c, q = [c] ∧ is_quote c = true))
    as (q & -> & Hq1 & Hqshape).
  { destruct Hq as [<-|(c & -> & Hc)].
    - exists []. rewrite Nat.sub_diag. by split_and!; [|rewrite take_0|left].
    - exists [c]. split_and!; [done| |right; by exists c].
      cbn [length]. replace (S (length (l ++ l' ++ s')) - length (l ++ l' ++ s'))
        with 1 by lia. done. }
  clear Hq. rewrite Hq1, take_app_suffix in *.
  assert (l' = q) as -> by (vm_compute in Hback; congruence).
  unfold group. rewrite Hgroups.
  change (default [] (dict_get (dict_set (dict_set [] 1 q) 2 l) 2)) with l.
  split_and!.
  - intros ->. simpl in Hnl. lia.
  - eapply Forall_impl; [exact Hl|]. intros c Hc. cbn beta in Hc.
    by apply negb_true_iff, orb_false_iff in Hc.
  - exists pre, sp1, directive, sp2, q, s'.
    split_and!; [done|done|by rewrite Forall_app| |done].
    intros ->. simpl in Hn2. lia.
Qed.

Lemma _regex_asm_includes_sound_witness :
  octets "defs.inc" ≠ []
  ∧ Forall (fun c => is_space c = false ∧ is_quote c = false) (octets "defs.inc").
Proof.
  destruct (_regex_asm_includes_sound (decode_ignore asm_source) (octets "defs.inc"))
    as (Hne & Hall & _); [vm_compute; left|].
  by split.
Defined.

Lemma rep_group_text (l s : str) (x : nat) :
  default [] (dict_get (dict_set [] x (take (length (l ++ s) - length s) (l ++ s))) x)
  = l.
Proof.
  rewrite take_app_suffix. cbn [dict_set dict_get]. by rewrite decide_True.
Qed.

(** X13. The regex fallbacks for shell, Lua, Perl and Python never return
    an empty reference, so [add] records each one; a shell path holds no
    white space, a Lua module no quote, a Perl module only word characters
    and colons, a Python module only word characters and dots. *)
Theorem regex_fallbacks_nonempty is_word text ref :
  (ref ∈ _regex_bash_sources text →
     ref ≠ [] ∧ Forall (fun c => is_space c = false) ref)
  ∧ (ref ∈ _regex_lua_requires text →
       ref ≠ [] ∧ Forall (fun c => is_quote c = false) ref)
  ∧ (ref ∈ _regex_perl_uses is_word text →
       ref ≠ [] ∧ Forall (fun c => is_word c = true ∨ c = 58%N) ref)
  ∧ (ref ∈ _regex_python_imports is_word text →
       ref ≠ [] ∧ Forall (fun c => is_word c = true ∨ c = 46%N) ref).
Proof.
  assert (Hword : ∀ d l,
            Forall (fun c => is_word c || (c =? d)%N = true) l →
            Forall (fun c => is_word c = true ∨ c = d) l).
  { intros d l Hl. eapply Forall_impl; [exact Hl|].
    intros c [?|?%N.eqb_eq]%orb_true_iff; auto. }
  assert (Hlen : ∀ l : str, 1 ≤ length l → l ≠ []).
  { intros l Hl ->. simpl in Hl. lia. }
  split_and!.
  - intros (m & pre & s1 & s' & -> & Hc & ->)%findall1_elem_of.
    unfold bash_source_re, seq in Hc. cbn [foldr consumes] in Hc.
    destruct Hc as (? & ? & [-> ->] & ? & ? & (sp1 & -> & _ & _ & ->)
      & s3 & caps3 & Hcmd & ? & ? & (sp2 & -> & _ & _ & ->)
      & ? & ? & (? & (l & -> & Hl & Hnl & ->) & ->) & <- & Hgroups).
    assert (caps3 = []) as -> by (by destruct Hcmd as [[_ ->]|[_ ->]]).
    unfold group. rewrite Hgroups, rep_group_text. split; [by apply Hlen|].
    eapply Forall_impl; [exact Hl|]. intros c Hc. by apply negb_true_iff in Hc.
  - intros (m & pre & s1 & s' & -> & Hc & ->)%findall1_elem_of.
    unfold lua_require_re, seq in Hc. cbn [foldr consumes] in Hc.
    destruct Hc as (? & ? & [-> ->] & ? & ? & (sp1 & -> & _ & _ & ->)
      & ? & ? & [-> ->] & ? & ? & (sp2 & -> & _ & _ & ->)
      & ? & ? & (o & -> & _ & ->)
      & s6 & ? & (? & (l & -> & Hl & Hnl & ->) & ->)
      & ? & ? & (c & Hs6 & _ & ->) & ? & ? & (sp3 & -> & _ & _ & ->)
      & ? & ? & [-> ->] & _ & Hgroups).
    subst s6. unfold group. rewrite Hgroups, rep_group_text.
    split; [by apply Hlen|].
    eapply Forall_impl; [exact Hl|]. intros c' Hc. by apply negb_true_iff in Hc.
  - intros (m & pre & s1 & s' & -> & Hc & ->)%findall1_elem_of.
    unfold perl_use_re, seq in Hc. cbn [foldr consumes] in Hc.
    destruct Hc as (? & ? & [-> ->] & ? & ? & (sp1 & -> & _ & _ & ->)
      & ? & ? & [-> ->] & ? & ? & (sp2 & -> & _ & _ & ->)
      & ? & ? & (? & (l & -> & Hl & Hnl & ->) & ->) & <- & Hgroups).
    unfold group. rewrite Hgroups, rep_group_text.
    split; [by apply Hlen|by apply Hword].
  - unfold _regex_python_imports.
    intros (m & Hin & Hm)%list_elem_of_In%in_flat_map.
    apply list_elem_of_In, finditer_elem_of in Hin as (pre & s1 & s' & -> & Hc).
    unfold python_import_re, seq in Hc. cbn [foldr consumes] in Hc.
    destruct Hc as (? & ? & [-> ->] & ? & ? & (sp1 & -> & _ & _ & ->)
      & ? & ? & Halt & _ & Hgroups).
    destruct Halt as
      [(? & ? & [-> ->] & ? & ? & (sp2 & -> & _ & _ & ->)
        & s4 & ? & (? & (l & -> & Hl & Hnl & ->) & ->)
        & ? & ? & (sp3 & Hs4 & _ & _ & ->) & ? & ? & [-> ->] & _ & ->)
      |(? & ? & [-> ->] & ? & ? & (sp2 & -> & _ & _ & ->)
        & ? & ? & (? & (l & -> & Hl & Hnl & ->) & ->) & _ & ->)].
    + subst s4. unfold group in Hm. rewrite Hgroups, take_app_suffix in Hm.
      cbn [dict_set dict_get] in Hm. rewrite decide_True in Hm by done.
      destruct l as [|c l]; [simpl in Hnl; lia|].
      apply list_elem_of_In, list_elem_of_singleton in Hm as ->.
      split; [done|by apply Hword].
    + unfold group in Hm. rewrite Hgroups, take_app_suffix in Hm.
      cbn [dict_set dict_get] in Hm.
      rewrite decide_False in Hm by done. rewrite decide_True in Hm by done.
      cbn [dict_get] in Hm.
      destruct l as [|c l]; [simpl in Hnl; lia|].
      apply list_elem_of_In, list_elem_of_singleton in Hm as ->.
      split; [done|by apply Hword].
Qed.

Lemma regex_fallbacks_nonempty_witness :
  octets "os" ≠ [] ∧ octets "./lib.sh" ≠ [].
Proof.
  split.
  - pose proof (regex_fallbacks_nonempty ascii_word (decode_ignore import_os)
                  (octets "os")) as (_ & _ & _ & Hpy).
    apply Hpy. vm_compute. left.
  - pose proof (regex_fallbacks_nonempty ascii_word
                  (octets ". ./lib.sh" ++ [10%N]) (octets "./lib.sh"))
      as (Hsh & _).
    apply Hsh. vm_compute. left.
Defined.

(** *** A line that the include regex reads back *)

Lemma strip_prefix_app l s : strip_prefix l (l ++ s) = Some s.
Proof. induction l as [|a l IH]; [by destruct s|]. simpl. by rewrite N.eqb_refl. Qed.

Lemma match_lit_app {X} l prev s caps (k : @cont X) :
  match_lit l prev (l ++ s) caps k
  = k (match l with [] => prev | _ :: _ => last l end) s caps.
Proof. unfold match_lit. by rewrite strip_prefix_app. Qed.

(** A greedy repetition takes a whole run of the class when the rest of
    the pattern then matches. *)
Lemma match_rep_greedy {X} p least prev l rest caps (k : @cont X) x :
  Forall (fun c => p c = true) l →
  match rest with c :: _ => p c = false | [] => True end →
  least ≤ length l →
  (∀ prev', k prev' rest caps = Some x) →
  match_rep p least prev (l ++ rest) caps k = Some x.
Proof.
  intros Hl Hrest. revert least prev.
  induction Hl as [|c l Hc Hl IH]; intros least prev Hn Hk.
  - simpl in Hn. assert (least = 0) as -> by lia. cbn [app].
    destruct rest as [|c rest]; simpl; [done|]. by rewrite Hrest.
  - cbn [app match_rep]. rewrite Hc, IH; [done| |done].
    simpl in Hn. lia.
Qed.

Lemma finditer_from_skip r prev l x s :
  finditer_from r prev (l ++ x :: s) (S (length l)) = finditer_from r (Some x) s 0.
Proof.
  revert prev. induction l as [|c l IH]; intros prev; [done|].
  cbn [app length finditer_from]. apply IH.
Qed.

Lemma match_here_include_line opening closing path :
  (opening = 60%N ∨ opening = quote) →
  (closing = 62%N ∨ closing = quote) →
  path ≠ [] →
  Forall (fun c => c ≠ 62%N ∧ c ≠ quote) path →
  match_here c_include_re None
    (octets "#include " ++ [opening] ++ path ++ [closing; 10%N])
  = Some {| span := 11 + length path; groups := [(1, path)] |}.
Proof.
  intros Ho Hc Hne Hpath.
  change (octets "#include " ++ [opening] ++ path ++ [closing; 10%N])
    with ([] ++ octets "#" ++ [] ++ octets "include" ++ [32%N] ++ opening
          :: path ++ [closing; 10%N]).
  unfold match_here, c_include_re, seq. cbn [foldr rmatch].
  apply match_rep_greedy; [constructor|reflexivity|simpl; lia|]. intros ?.
  rewrite match_lit_app.
  apply match_rep_greedy; [constructor|reflexivity|simpl; lia|]. intros ?.
  rewrite match_lit_app.
  apply match_rep_greedy;
    [by repeat constructor| |simpl; lia|].
  { destruct Ho as [-> | ->]; reflexivity. }
  intros ?.
  replace ((opening =? 60)%N || (opening =? quote)%N) with true
    by (destruct Ho as [-> | ->]; reflexivity).
  apply match_rep_greedy.
  - eapply Forall_impl; [exact Hpath|]. intros c [H1 H2]. cbn beta.
    apply negb_true_iff, orb_false_iff. by split; apply N.eqb_neq.
  - destruct Hc as [-> | ->]; reflexivity.
  - destruct path; [done|simpl; lia].
  - intros ?.
    replace ((closing =? 62)%N || (closing =? quote)%N) with true
      by (destruct Hc as [-> | ->]; reflexivity).
    rewrite take_app_suffix. f_equal. f_equal.
    rewrite !length_app. simpl. rewrite length_app. simpl. lia.
Qed.

(** X14. The include regex reads back a line written for it: for a
    non-empty path without [>] and double quote, the text of the single
    line [#include], a space, the path between [<] or a double quote and
    [>] or a double quote, yields exactly that path. *)
Theorem _regex_c_includes_line opening closing path :
  (opening = 60%N ∨ opening = quote) →
  (closing = 62%N ∨ closing = quote) →
  path ≠ [] →
  Forall (fun c => c ≠ 62%N ∧ c ≠ quote) path →
  _regex_c_includes (octets "#include " ++ [opening] ++ path ++ [closing; 10%N])
  = [path].
Proof.
  intros Ho Hc Hne Hpath. unfold _regex_c_includes, findall1, finditer.
  pose proof (match_here_include_line opening closing path Ho Hc Hne Hpath) as Hm.
  change (octets "#include " ++ [opening] ++ path ++ [closing; 10%N])
    with (35%N :: (octets "include " ++ opening :: path) ++ closing :: [10%N])
    in *.
  cbn [finditer_from]. rewrite Hm. cbn [span map group groups].
  replace (pred (11 + length path))
    with (S (length (octets "include " ++ opening :: path)))
    by (rewrite length_app; simpl; lia).
  rewrite finditer_from_skip.
  replace (finditer_from c_include_re (Some closing) [10%N] 0) with (@nil Match)
    by (destruct Hc as [-> | ->]; reflexivity).
  done.
Qed.

Lemma _regex_c_includes_line_witness :
  _regex_c_includes (octets "#include <sys/types.h>" ++ [10%N])
  = [octets "sys/types.h"].
Proof.
  apply (_regex_c_includes_line 60%N 62%N (octets "sys/types.h"));
    [by left|by left|done|].
  repeat constructor; done.
Defined.

(** ** The pass over the tree *)

Section PassFacts.
Variable is_word : N → bool.
Variable ts : tree_sitter.

#[local] Abbreviation analyzed := (analyze_file is_word ts).
#[local] Abbreviation scanned := (scan_files is_word ts).
#[local] Abbreviation extracted := (dependencies_of is_word ts).

Lemma scan_files_returns_inv state state' entries :
  scanned state entries = Ok state' →
  ∀ entry, entry ∈ entries → ¬ raises (analyzed entry).
Proof.
  revert state. induction entries as [|e es IH]; intros state Hrun entry.
  - by intros ?%elem_of_nil.
  - cbn [scan_files] in Hrun. unfold_result.
    destruct (scan_file is_word ts state e) as [state1|] eqn:H1; [|done].
    intros [->|Hin]%elem_of_cons; [|by eapply IH].
    unfold scan_file in H1. destruct state as [graphs counts]. unfold_result.
    destruct (analyzed e); [by intros []|done].
Qed.

Lemma scan_files_raises state pre entry post e :
  (∀ earlier, earlier ∈ pre → ¬ raises (analyzed earlier)) →
  analyzed entry = Raise e →
  scanned state (pre ++ entry :: post) = Raise e.
Proof.
  intros Hpre He. destruct state as [graphs counts].
  destruct (scan_files_counts is_word ts pre graphs counts Hpre)
    as (graphs' & counts' & Hrun & _).
  rewrite scan_files_app, Hrun. unfold_result. cbn [scan_files].
  unfold scan_file. unfold_result. by rewrite He.
Qed.

Lemma scan_file_reachable state state' entry :
  Forall (fun lg : string * DependencyGraph => reachable (snd lg)) (fst state) →
  scan_file is_word ts state entry = Ok state' →
  Forall (fun lg : string * DependencyGraph => reachable (snd lg)) (fst state').
Proof.
  destruct state as [graphs counts]. intros Hall. unfold scan_file. unfold_result.
  destruct (analyzed entry) as [[[language|] dependencies]|]; [| |done].
  - intros [= <-]. cbn [fst]. apply dict_set_Forall; [done|]. cbn [snd].
    apply reachable_add.
    destruct (dict_get graphs language) as [g|] eqn:Hget; simpl.
    + apply dict_get_elem_of in Hget. cbn [fst] in Hall.
      rewrite Forall_forall in Hall. apply (Hall _ Hget).
    + constructor.
  - by intros [= <-].
Qed.

Lemma scan_files_reachable state state' entries :
  Forall (fun lg : string * DependencyGraph => reachable (snd lg)) (fst state) →
  scanned state entries = Ok state' →
  Forall (fun lg : string * DependencyGraph => reachable (snd lg)) (fst state').
Proof.
  revert state. induction entries as [|e es IH]; intros state Hall; simpl.
  - by intros [= <-].
  - unfold_result. destruct (scan_file is_word ts state e) as [state1|] eqn:H1;
      [|done].
    apply IH. by eapply scan_file_reachable.
Qed.

Lemma graph_of_set graphs language language' g :
  graph_of (dict_set graphs language g) language'
  = if decide (language = language') then g else graph_of graphs language'.
Proof.
  unfold graph_of. case_decide as Heq.
  - subst. by rewrite dict_get_set_eq.
  - by rewrite dict_get_set_ne.
Qed.

Lemma add_edges_of_any g source targets other :
  edges_of (add g source targets) other
  = if decide (source = other)
    then edges_of g other ∪ list_to_set (nonempty targets)
    else edges_of g other.
Proof.
  case_decide as Heq.
  - subst. apply add_edges_of.
  - unfold edges_of. by rewrite add_other.
Qed.

(** The references recorded by the loop, file by file. *)
Lemma scan_files_edges entries graphs counts graphs' counts' language source :
  scanned (graphs, counts) entries = Ok (graphs', counts') →
  edges_of (graph_of graphs' language) source
  = edges_of (graph_of graphs language) source
    ∪ ⋃ (map (fun entry => list_to_set (nonempty (extracted entry)))
             (filter (fun entry => detect_language (path entry) = Some language
                                   ∧ path_str (path entry) = source)
                     entries)).
Proof.
  revert graphs counts. induction entries as [|e es IH]; intros graphs counts.
  - intros [= <- <-]. simpl. set_solver.
  - cbn [scan_files]. unfold_result.
    destruct (scan_file is_word ts (graphs, counts) e) as [[graphs1 counts1]|]
      eqn:H1; [|done].
    intros Hrun. rewrite (IH _ _ Hrun). clear IH Hrun.
    unfold scan_file in H1. unfold_result.
    destruct (analyzed e) as [[[id|] deps]|] eqn:He; [| |done].
    + pose proof (analyze_file_language _ _ _ _ _ He) as Hid.
      assert (Hdeps : extracted e = deps)
        by (unfold dependencies_of; by rewrite He).
      injection H1 as <- <-. rewrite graph_of_set.
      fold (graph_of graphs id).
      destruct (decide (id = language)) as [->|Hne].
      * rewrite add_edges_of_any.
        destruct (decide (path_str (path e) = source)) as [Hs|Hs].
        -- rewrite filter_cons_True by done. cbn [map union_list foldr].
           rewrite Hdeps. set_solver.
        -- rewrite filter_cons_False; [done|]. by intros [_ ?].
      * rewrite filter_cons_False; [done|]. intros [? _]. congruence.
    + pose proof (analyze_file_language _ _ _ _ _ He) as Hid.
      injection H1 as <- <-.
      rewrite filter_cons_False; [done|]. intros [? _]. congruence.
Qed.

Lemma scan_files_total entries graphs counts graphs' counts' :
  scanned (graphs, counts) entries = Ok (graphs', counts') →
  sum (dict_values counts')
  = sum (dict_values counts)
    + length (filter (fun entry => is_Some (detect_language (path entry))) entries).
Proof.
  revert graphs counts. induction entries as [|e es IH]; intros graphs counts.
  - intros [= <- <-]. simpl. lia.
  - cbn [scan_files]. unfold_result.
    destruct (scan_file is_word ts (graphs, counts) e) as [[graphs1 counts1]|]
      eqn:H1; [|done].
    intros Hrun. rewrite (IH _ _ Hrun). clear IH Hrun.
    unfold scan_file in H1. unfold_result. rewrite filter_cons.
    destruct (analyzed e) as [[[id|] deps]|] eqn:He; [| |done].
    + pose proof (analyze_file_language _ _ _ _ _ He) as Hid.
      injection H1 as <- <-. rewrite <- Hid.
      rewrite decide_True by done. cbn [length].
      pose proof (sum_values_dict_set (fun n : nat => n) counts id
                    (count_of counts id + 1)) as Hsum.
      rewrite !map_id in Hsum. unfold count_of in *.
      destruct (dict_get counts id); simpl in *; lia.
    + pose proof (analyze_file_language _ _ _ _ _ He) as Hid.
      injection H1 as <- <-. rewrite <- Hid.
      rewrite decide_False by (by intros [? ?]). done.
Qed.
End PassFacts.

(** X15. The pass returns exactly when the extraction raises for no
    eligible file; otherwise it raises what the first such file raises, and
    nothing of the files scanned before it is returned. *)
Theorem build_dependency_graph_returns_iff is_word ts tree omit :
  ((∃ result, build_dependency_graph is_word ts tree omit = Ok result)
   ↔ ∀ entry, entry ∈ iter_repository_files tree omit →
       ¬ raises (analyze_file is_word ts entry))
  ∧ (∀ pre entry post e,
       iter_repository_files tree omit = pre ++ entry :: post →
       (∀ earlier, earlier ∈ pre → ¬ raises (analyze_file is_word ts earlier)) →
       analyze_file is_word ts entry = Raise e →
       build_dependency_graph is_word ts tree omit = Raise e).
Proof.
  unfold build_dependency_graph. split; [split|].
  - intros [result Hrun]. by eapply scan_files_returns_inv.
  - intros Hok.
    destruct (scan_files_counts is_word ts _ [] [] Hok)
      as (graphs & counts & Hrun & _).
    by exists (graphs, counts).
  - intros pre entry post e -> Hpre He. by apply scan_files_raises.
Qed.

Lemma build_dependency_graph_returns_iff_witness :
  build_dependency_graph ascii_word (capturing 9 14) [os_py; bad_c] DEFAULT_OMIT
  = Raise UnicodeDecodeError.
Proof.
  pose proof (build_dependency_graph_returns_iff ascii_word (capturing 9 14)
                [os_py; bad_c] DEFAULT_OMIT) as [_ Hraise].
  apply (Hraise [os_py] bad_c []).
  - by vm_compute.
  - intros earlier ->%list_elem_of_singleton. by vm_compute.
  - by vm_compute.
Defined.

(** X16. Every graph the pass returns is in a state reached by [add] from
    the empty graph: each of its sources has at least one reference and no
    reference is the empty string. *)
Theorem build_dependency_graph_reachable is_word ts tree omit graphs counts :
  build_dependency_graph is_word ts tree omit = Ok (graphs, counts) →
  ∀ language graph,
    (language, graph) ∈ graphs →
    reachable graph
    ∧ ∀ source refs, (source, refs) ∈ edges graph → refs ≠ ∅ ∧ [] ∉ refs.
Proof.
  intros Hrun language graph Hin.
  assert (Hreach : reachable graph).
  { pose proof (scan_files_reachable is_word ts ([], []) _ _
                  (Forall_nil_2 _) Hrun) as Hall.
    cbn [fst] in Hall. rewrite Forall_forall in Hall. apply (Hall _ Hin). }
  split; [done|]. intros source refs Hsrc.
  pose proof (reachable_well_formed _ Hreach) as Hwf. unfold well_formed in Hwf.
  rewrite Forall_forall in Hwf. apply (Hwf _ Hsrc).
Qed.

Lemma build_dependency_graph_reachable_witness :
  ∃ graph, reachable graph ∧ dict_keys (edges graph) = ["src/a.c"].
Proof.
  destruct (build_dependency_graph ascii_word silent sample_tree DEFAULT_OMIT)
    as [[graphs counts]|] eqn:Hrun; [|by vm_compute in Hrun].
  pose proof (build_dependency_graph_reachable ascii_word silent sample_tree
                DEFAULT_OMIT graphs counts Hrun) as Hall.
  vm_compute in Hrun. injection Hrun as <- <-.
  eexists. split.
  - eapply Hall. left.
  - by vm_compute.
Defined.

(** X17. What the pass records for a source of a language is exactly what
    was extracted from the eligible files of that language with that
    relative path: the union of their non-empty dependencies, nothing from
    any other file. *)
Theorem build_dependency_graph_edges is_word ts tree omit graphs counts :
  build_dependency_graph is_word ts tree omit = Ok (graphs, counts) →
  ∀ language source,
    edges_of (graph_of graphs language) source
    = ⋃ (map (fun entry => list_to_set (nonempty (dependencies_of is_word ts entry)))
             (filter (fun entry => detect_language (path entry) = Some language
                                   ∧ path_str (path entry) = source)
                     (iter_repository_files tree omit))).
Proof.
  intros Hrun language source.
  rewrite (scan_files_edges is_word ts _ _ _ _ _ language source Hrun).
  unfold graph_of, edges_of. simpl. set_solver.
Qed.

Lemma build_dependency_graph_edges_witness :
  ∃ graphs counts,
    build_dependency_graph ascii_word silent sample_tree DEFAULT_OMIT
    = Ok (graphs, counts)
    ∧ edges_of (graph_of graphs "c") "src/a.c" = {[ octets "a.h"; octets "b.h" ]}
    ∧ edges_of (graph_of graphs "c") "third_party/z.c" = ∅.
Proof.
  destruct (build_dependency_graph ascii_word silent sample_tree DEFAULT_OMIT)
    as [[graphs counts]|] eqn:Hrun; [|by vm_compute in Hrun].
  exists graphs, counts. split; [done|].
  rewrite !(build_dependency_graph_edges ascii_word silent sample_tree
              DEFAULT_OMIT graphs counts Hrun).
  split.
  - vm_compute filter. vm_compute map. cbn [union_list foldr]. set_solver.
  - vm_compute filter. done.
Defined.

(** X18. The order in which the files are visited changes neither the
    counts nor the references: when the pass returns for a tree, it returns
    for every reordering of the tree, with the same count for each language
    and the same reference set for each source of each language. *)
Theorem build_dependency_graph_order is_word ts tree tree' omit graphs counts :
  tree ≡ₚ tree' →
  build_dependency_graph is_word ts tree omit = Ok (graphs, counts) →
  ∃ graphs' counts',
    build_dependency_graph is_word ts tree' omit = Ok (graphs', counts')
    ∧ (∀ language, count_of counts' language = count_of counts language)
    ∧ (∀ language source,
         edges_of (graph_of graphs' language) source
         = edges_of (graph_of graphs language) source).
Proof.
  intros Hperm Hrun.
  assert (Hfiles : iter_repository_files tree omit
                   ≡ₚ iter_repository_files tree' omit)
    by (unfold iter_repository_files; by rewrite Hperm).
  pose proof (scan_files_returns_inv is_word ts _ _ _ Hrun) as Hok.
  assert (Hok' : ∀ entry, entry ∈ iter_repository_files tree' omit →
                 ¬ raises (analyze_file is_word ts entry)).
  { intros entry Hin. apply Hok. by rewrite Hfiles. }
  destruct (scan_files_counts is_word ts _ [] [] Hok)
    as (graphs0 & counts0 & Hrun0 & Hcount).
  assert (Hsame : Ok (graphs0, counts0) = Ok (graphs, counts))
    by (rewrite <- Hrun0; exact Hrun).
  injection Hsame as -> ->. clear Hrun0.
  destruct (scan_files_counts is_word ts _ [] [] Hok')
    as (graphs' & counts' & Hrun' & Hcount').
  exists graphs', counts'. split; [exact Hrun'|]. split.
  - intros language. rewrite Hcount, Hcount'. unfold files_of.
    by rewrite Hfiles.
  - intros language source.
    rewrite (scan_files_edges is_word ts _ _ _ _ _ language source Hrun).
    rewrite (scan_files_edges is_word ts _ _ _ _ _ language source Hrun').
    f_equal. apply set_eq. intros r. rewrite !elem_of_union_list.
    by setoid_rewrite Hfiles.
Qed.

Lemma build_dependency_graph_order_witness :
  ∃ graphs' counts',
    build_dependency_graph ascii_word silent (reverse sample_tree) DEFAULT_OMIT
    = Ok (graphs', counts')
    ∧ count_of counts' "c" = 2
    ∧ dict_keys graphs' = ["c"; "python"].
Proof.
  destruct (build_dependency_graph ascii_word silent sample_tree DEFAULT_OMIT)
    as [[graphs counts]|] eqn:Hrun; [|by vm_compute in Hrun].
  destruct (build_dependency_graph_order ascii_word silent sample_tree
              (reverse sample_tree) DEFAULT_OMIT graphs counts)
    as (graphs' & counts' & Hrun' & Hcount & _);
    [by rewrite reverse_Permutation|done|].
  exists graphs', counts'. split; [done|]. rewrite Hcount.
  vm_compute in Hrun. injection Hrun as <- <-.
  vm_compute in Hrun'. injection Hrun' as <- <-. by vm_compute.
Defined.

(** ** The summary *)

Lemma sum_Permutation l l' : l ≡ₚ l' → sum l = sum l'.
Proof. induction 1; simpl in *; lia. Qed.

Lemma sum_take n l : sum (take n l) ≤ sum l.
Proof.
  revert n. induction l as [|x l IH]; intros [|n]; simpl; try lia.
  specialize (IH n). lia.
Qed.

Lemma edge_count_degrees g :
  edge_count g = sum (map snd (dict_items (degree_counter g))).
Proof.
  unfold edge_count, degree_counter, dict_values, dict_items.
  by rewrite !map_map.
Qed.

Lemma count_of_keys (counts : Counter) :
  NoDup (dict_keys counts) →
  map (count_of counts) (dict_keys counts) = dict_values counts.
Proof.
  unfold dict_keys, dict_values, count_of.
  induction counts as [|[k v] counts IH]; [done|].
  cbn [map fst snd dict_get]. intros [Hk Hnd]%NoDup_cons.
  rewrite decide_True by done. cbn [default]. unfold id at 1. f_equal.
  rewrite <- IH by done. apply map_ext_in. intros k' Hin%list_elem_of_In.
  rewrite decide_False; [done|]. by intros ->.
Qed.

(** X19. In the summary of a pass, the total of files is the number of
    eligible files with a registered extension, the total of edges is the
    sum of the per-language edge counts, and the total of languages is the
    number of per-language entries. *)
Theorem summary_totals is_word ts tree omit graphs counts :
  build_dependency_graph is_word ts tree omit = Ok (graphs, counts) →
  let summary := summarize_graphs graphs counts in
  t_files (s_totals summary)
  = length (filter (fun entry => is_Some (detect_language (path entry)))
                   (iter_repository_files tree omit))
  ∧ t_edges (s_totals summary)
    = sum (map ls_edges (dict_values (s_languages summary)))
  ∧ t_files (s_totals summary)
    = sum (map ls_files (dict_values (s_languages summary)))
  ∧ t_languages (s_totals summary) = length (s_languages summary).
Proof.
  intros Hrun summary.
  assert (Ht : tallied (graphs, counts)).
  { eapply scan_files_tallied; [|exact Hrun].
    split_and!; [done|constructor|constructor]. }
  destruct Ht as (Hkeys & Hnd & _). cbn [fst snd] in Hkeys, Hnd.
  unfold summary. rewrite summarize_graphs_languages by done.
  unfold summarize_graphs, dict_values. cbn [s_totals t_files t_edges t_languages].
  rewrite !map_map, length_map. cbn [snd ls_edges ls_files fst].
  split_and!; [|done| |done].
  - pose proof (scan_files_total is_word ts _ _ _ _ _ Hrun) as Htotal.
    unfold dict_values in Htotal. simpl in Htotal. lia.
  - rewrite <- (map_map fst (count_of counts)).
    fold (dict_keys graphs). rewrite Hkeys, count_of_keys; [done|].
    by rewrite <- Hkeys.
Qed.

Lemma summary_totals_witness :
  ∃ graphs counts,
    build_dependency_graph ascii_word silent sample_tree DEFAULT_OMIT
    = Ok (graphs, counts)
    ∧ t_files (s_totals (summarize_graphs graphs counts)) = 3.
Proof.
  destruct (build_dependency_graph ascii_word silent sample_tree DEFAULT_OMIT)
    as [[graphs counts]|] eqn:Hrun; [|by vm_compute in Hrun].
  exists graphs, counts. split; [done|].
  destruct (summary_totals ascii_word silent sample_tree DEFAULT_OMIT
              graphs counts Hrun) as (-> & _).
  by vm_compute.
Defined.

(** X20. The top-emitter list of a graph has as many entries as the graph
    has sources, up to 10; each entry is a source of the graph with the
    size of its reference set; no source left out has more references than
    a source listed; and the listed degrees add up to at most the edge
    count, to exactly the edge count when the graph has at most 10
    sources. *)
Theorem heavy_hitters_top g :
  length (heavy_hitters g) = min 10 (length (edges g))
  ∧ (∀ source degree,
       (source, degree) ∈ heavy_hitters g →
       ∃ refs, (source, refs) ∈ edges g ∧ degree = size refs)
  ∧ (∀ listed other,
       listed ∈ heavy_hitters g → other ∈ dict_items (degree_counter g) →
       other ∉ heavy_hitters g → snd other ≤ snd listed)
  ∧ sum (map snd (heavy_hitters g)) ≤ edge_count g
  ∧ (length (edges g) ≤ 10 → sum (map snd (heavy_hitters g)) = edge_count g).
Proof.
  pose proof (py_sorted_Permutation snd Nat.ltb true (dict_items (degree_counter g)))
    as Hperm.
  pose proof (py_sorted_descending snd (dict_items (degree_counter g))) as Hsorted.
  assert (Hlen : length (py_sorted snd Nat.ltb true (dict_items (degree_counter g)))
                 = length (edges g)).
  { rewrite Hperm. unfold degree_counter, dict_items. by rewrite length_map. }
  unfold heavy_hitters. split_and!.
  - by rewrite length_take, Hlen.
  - intros source degree Hin.
    assert (Hin' : (source, degree)
                   ∈ py_sorted snd Nat.ltb true (dict_items (degree_counter g)))
      by (rewrite <- (take_drop 10); apply elem_of_app; by left).
    clear Hin. rename Hin' into Hin. rewrite Hperm in Hin.
    unfold degree_counter, dict_items in Hin.
    apply list_elem_of_fmap in Hin as ([s refs] & [= -> ->] & Hin).
    by exists refs.
  - intros listed other Hlisted Hother Hout.
    rewrite <- Hperm, <- (take_drop 10) in Hother.
    apply elem_of_app in Hother as [?|Hother]; [done|].
    rewrite <- (take_drop 10) in Hsorted.
    apply (StronglySorted_app_1_elem_of _ _ _ _ _ Hsorted Hlisted Hother).
  - rewrite edge_count_degrees.
    assert (Hsum : sum (map snd (dict_items (degree_counter g)))
                   = sum (map snd (py_sorted snd Nat.ltb true
                                     (dict_items (degree_counter g)))))
      by (apply sum_Permutation, Permutation_map; by symmetry).
    rewrite Hsum, <- firstn_map. apply sum_take.
  - intros Hfew. rewrite take_ge by lia.
    rewrite edge_count_degrees.
    by apply sum_Permutation, Permutation_map.
Qed.

Lemma heavy_hitters_top_witness :
  sum (map snd (heavy_hitters degrees_1535)) = edge_count degrees_1535.
Proof.
  apply (heavy_hitters_top degrees_1535). vm_compute. lia.
Defined.

(** ** The classifier *)

Lemma append_nil t : ("" ++ t)%string = t.
Proof. reflexivity. Qed.

Lemma append_cons c s t : (String c s ++ t)%string = String c (s ++ t).
Proof. reflexivity. Qed.

Lemma rfind_dot_app s t i :
  rfind_dot (s ++ t)%string i
  = match rfind_dot t (i + String.length s) with
    | Some j => Some j
    | None => rfind_dot s i
    end.
Proof.
  revert i. induction s as [|c s IH]; intros i.
  - rewrite append_nil. cbn [String.length rfind_dot]. rewrite Nat.add_0_r.
    by destruct (rfind_dot t i).
  - rewrite append_cons. cbn [String.length rfind_dot]. rewrite IH.
    replace (S i + String.length s) with (i + S (String.length s)) by lia.
    by destruct (rfind_dot t _).
Qed.

Lemma rfind_dot_bounds s i j : rfind_dot s i = Some j → i ≤ j < i + String.length s.
Proof.
  revert i. induction s as [|c s IH]; intros i; simpl; [done|].
  destruct (rfind_dot s (S i)) as [j'|] eqn:Hrec.
  - intros [= <-]. apply IH in Hrec. lia.
  - case_decide; [|done]. intros [= <-]. lia.
Qed.

Lemma substring_all t : substring 0 (String.length t) t = t.
Proof. induction t as [|c t IH]; [done|]. cbn. by rewrite IH. Qed.

Lemma string_app_length s t :
  String.length (s ++ t)%string = String.length s + String.length t.
Proof.
  induction s as [|c s IH]; [done|].
  rewrite append_cons. cbn [String.length]. by rewrite IH.
Qed.

Lemma substring_app_r s t :
  substring (String.length s) (String.length (s ++ t) - String.length s) (s ++ t)%string
  = t.
Proof.
  rewrite string_app_length.
  replace (String.length s + String.length t - String.length s)
    with (String.length t) by lia.
  induction s as [|c s IH].
  - rewrite append_nil. apply substring_all.
  - rewrite append_cons. exact IH.
Qed.

Lemma substring_split s i :
  i ≤ String.length s →
  s = (substring 0 i s ++ substring i (String.length s - i) s)%string
  ∧ String.length (substring 0 i s) = i.
Proof.
  revert i. induction s as [|c s IH]; intros [|i] Hi; cbn in Hi; try lia.
  - done.
  - split; [|done]. rewrite Nat.sub_0_r.
    change (substring 0 0 (String c s)) with "". by rewrite append_nil, substring_all.
  - destruct (IH i) as [Hs Hl]; [lia|]. cbn [substring String.length].
    rewrite append_cons. split; [by f_equal|by f_equal].
Qed.

(** X21. A path is classified exactly when its last component is a
    non-empty stem followed by a registered extension, and then as the
    language of that extension: the directories play no part, and a file
    whose whole name is a registered extension (a dot-file such as [.py])
    has no language. *)
Theorem detect_language_stem_extension p language :
  (detect_language p = Some language
   ↔ ∃ stem extension,
       name p = (stem ++ extension)%string ∧ stem ≠ ""
       ∧ dict_get LANGUAGE_MAP extension = Some language)
  ∧ (∀ directories,
       is_Some (dict_get LANGUAGE_MAP (name p)) →
       detect_language (directories ++ [name p]) = None).
Proof.
  unfold detect_language, suffix. split; [split|].
  - destruct (rfind_dot (name p) 0) as [i|] eqn:Hdot; [|done].
    destruct ((0 <? i) && (i <? String.length (name p) - 1)) eqn:Hi; [|done].
    apply andb_true_iff in Hi as [H0%Nat.ltb_lt Hi%Nat.ltb_lt].
    intros Hget. destruct (substring_split (name p) i) as [Hsplit Hlen]; [lia|].
    exists (substring 0 i (name p)), (substring i (String.length (name p) - i) (name p)).
    split_and!; [done| |done]. intros Hempty. rewrite Hempty in Hlen.
    simpl in Hlen. lia.
  - intros (stem & extension & -> & Hstem & Hget).
    assert (Hext : rfind_dot extension (0 + String.length stem)
                   = Some (String.length stem)
                   ∧ 2 ≤ String.length extension).
    { unfold LANGUAGE_MAP in Hget. cbn [dict_get] in Hget.
      repeat (case_decide;
              [subst extension; split; [reflexivity|simpl; lia]|]).
      done. }
    destruct Hext as [Hdot Hlen]. rewrite rfind_dot_app, Hdot.
    assert (Hpos : 0 < String.length stem) by (destruct stem; [done|simpl; lia]).
    replace (0 <? String.length stem) with true by (symmetry; by apply Nat.ltb_lt).
    replace (String.length stem <? String.length (stem ++ extension) - 1) with true
      by (symmetry; apply Nat.ltb_lt; rewrite string_app_length; lia).
    cbn [andb]. by rewrite substring_app_r.
  - intros directories [l Hget].
    assert (Hname : name (directories ++ [name p]) = name p)
      by (unfold name at 1; by rewrite last_snoc).
    rewrite Hname. unfold LANGUAGE_MAP in Hget. cbn [dict_get] in Hget.
    repeat (case_decide as Hk; [rewrite <- Hk; reflexivity|clear Hk]).
    done.
Qed.

Lemma detect_language_stem_extension_witness :
  detect_language ["src"; "lib"; "graph.cppm"] = Some "cpp"
  ∧ ∃ stem extension,
      name ["src"; "a.c"] = (stem ++ extension)%string ∧ stem ≠ ""
      ∧ dict_get LANGUAGE_MAP extension = Some "c".
Proof.
  split.
  - apply (detect_language_stem_extension ["src"; "lib"; "graph.cppm"] "cpp").
    by exists "graph", ".cppm".
  - by apply (detect_language_stem_extension ["src"; "a.c"] "c").
Defined.
